(** * Shader suffix synthesis and compilation front-end

    A shallow embedding of the Go package [graphics]: [shaderSuffix]
    builds, by [fmt.Sprintf] templates, the Kage text appended to every
    user shader, and [CompileShader] appends it to the user source, calls
    the shader compiler and validates the two entry points.

    Go strings are [string], [[]byte] is [list byte], Go [int] values are
    [Z] (loop counters and the image count, which are never negative,
    are [nat]), and a Go result pair [(v, err)] is a Rocq pair whose second
    component is [None] for a nil error. *)

From Stdlib Require Import ZArith List Strings.String Strings.Ascii Strings.Byte Bool Lia.
From Stdlib Require Import DecimalString QArith Lqa.
Import ListNotations.
Open Scope string_scope.

(** ** [fmt.Sprintf], for the verbs the package uses *)

(** An operand of [fmt.Sprintf]: the package formats integers and strings. *)
Inductive arg : Type :=
| ArgInt (z : Z)
| ArgStr (s : string).

(** [%d]: signed decimal, no padding. *)
Definition fmt_d (z : Z) : string := NilZero.string_of_int (Z.to_int z).

(** One verb applied to its operand.  A missing operand or an operand of the
    wrong kind prints a [%!] marker, as in Go (the marker's exact text is not
    reproduced, and neither is the [%!(EXTRA ...)] suffix for operands left
    over: no call of this package reaches them). *)
Definition verb (c : ascii) (a : option arg) : string :=
  match a with
  | Some (ArgInt z) =>
      if Ascii.eqb c "d" then fmt_d z else String "%" (String "!" (String c "(int)"))
  | Some (ArgStr s) =>
      if Ascii.eqb c "s" then s else String "%" (String "!" (String c "(string)"))
  | None => String "%" (String "!" (String c "(MISSING)"))
  end.

(** Scanner states of the format string: literal text, just after [%],
    inside an explicit argument index [%[n]], and after the closing bracket. *)
Inductive fstate : Type :=
| Lit
| Pct
| Idx (n : nat)
| AfterIdx (n : nat).

Definition is_digit (c : ascii) : bool :=
  (48 <=? nat_of_ascii c)%nat && (nat_of_ascii c <=? 57)%nat.

(** [format st argNum args f] scans [f]; [argNum] is the 0-based number of the
    next operand.  [%[n]v] formats operand [n] (1-based) and continues with
    operand [n+1], as Go does; an index outside the operands prints a marker
    and leaves [argNum] as it was. *)
Fixpoint format (st : fstate) (argNum : nat) (args : list arg) (f : string) : string :=
  match f with
  | EmptyString =>
      match st with
      | Lit => EmptyString
      | Idx _ => "%!(BADINDEX)"
      | Pct | AfterIdx _ => "%!(NOVERB)"
      end
  | String c rest =>
      match st with
      | Lit =>
          if Ascii.eqb c "%" then format Pct argNum args rest
          else String c (format Lit argNum args rest)
      | Pct =>
          if Ascii.eqb c "%" then String c (format Lit argNum args rest)
          else if Ascii.eqb c "[" then format (Idx 0) argNum args rest
          else verb c (nth_error args argNum) ++ format Lit (S argNum) args rest
      | Idx n =>
          if Ascii.eqb c "]" then format (AfterIdx n) argNum args rest
          else if is_digit c then
            format (Idx (10 * n + (nat_of_ascii c - 48))) argNum args rest
          else "%!(BADINDEX)" ++ format Lit argNum args rest
      | AfterIdx n =>
          match n with
          | S k =>
              match nth_error args k with
              | Some a => verb c (Some a) ++ format Lit n args rest
              | None => String "%" (String "!" (String c "(BADINDEX)"))
                          ++ format Lit argNum args rest
              end
          | O => String "%" (String "!" (String c "(BADINDEX)"))
                   ++ format Lit argNum args rest
          end
      end
  end.

Definition Sprintf (f : string) (args : list arg) : string :=
  format Lit 0 args f.

(** ** Go errors *)

(** An [error] value is either made here by [fmt.Errorf] or comes from the
    [shader] package, whose error values are of an arbitrary type [E]. *)
Inductive error (E : Type) : Type :=
| fmtError (msg : string)
| extError (e : E).
Arguments fmtError {E} msg.
Arguments extError {E} e.

Definition Errorf {E : Type} (f : string) (args : list arg) : error E :=
  fmtError (Sprintf f args).

(** ** The templates of [shaderSuffix], as in the source *)

Definition header_format : string := "
var __imageDstTextureSize vec2

// imageSrcTextureSize returns the destination image's texture size in pixels.
func imageDstTextureSize() vec2 {
	return __imageDstTextureSize
}

var __imageSrcTextureSizes [%[1]d]vec2

// imageSrcTextureSize returns the 0th source image's texture size in pixels.
// As an image is a part of internal texture, the texture is usually bigger than the image.
// The texture's size is useful when you want to calculate pixels from texels in the texel mode.
func imageSrcTextureSize() vec2 {
	return __imageSrcTextureSizes[0]
}

// The unit is the source texture's pixel or texel.
var __imageDstRegionOrigin vec2

// The unit is the source texture's pixel or texel.
var __imageDstRegionSize vec2

// imageDstRegionOnTexture returns the destination image's region (the origin and the size) on its texture.
// The unit is the source texture's pixel or texel.
//
// As an image is a part of internal texture, the image can be located at an arbitrary position on the texture.
//
// Deprecated: as of v2.6. Use imageDstOrigin or imageDstSize.
func imageDstRegionOnTexture() (vec2, vec2) {
	return __imageDstRegionOrigin, __imageDstRegionSize
}

// imageDstRegionOnTexture returns the destination image's origin on its texture.
// The unit is the source texture's pixel or texel.
//
// As an image is a part of internal texture, the image can be located at an arbitrary position on the texture.
func imageDstOrigin() vec2 {
	return __imageDstRegionOrigin
}

// imageDstRegionOnTexture returns the destination image's size.
// The unit is the source texture's pixel or texel.
func imageDstSize() vec2 {
	return __imageDstRegionSize
}

// The unit is the source texture's pixel or texel.
var __imageSrcRegionOrigins [%[1]d]vec2

// The unit is the source texture's pixel or texel.
var __imageSrcRegionSizes [%[1]d]vec2

// imageSrcRegionOnTexture returns the 0th source image's region (the origin and the size) on its texture.
// The unit is the source texture's pixel or texel.
//
// As an image is a part of internal texture, the image can be located at an arbitrary position on the texture.
//
// Deprecated: as of v2.6. Use imageSrc0Origin or imageSrc0Size instead.
func imageSrcRegionOnTexture() (vec2, vec2) {
	return __imageSrcRegionOrigins[0], __imageSrcRegionSizes[0]
}
".

Definition accessors_format : string := "
// imageSrc%[1]dOrigin returns the source image's region origin on its texture.
// The unit is the source texture's pixel or texel.
//
// As an image is a part of internal texture, the image can be located at an arbitrary position on the texture.
func imageSrc%[1]dOrigin() vec2 {
	return __imageSrcRegionOrigins[%[1]d]
}

// imageSrc%[1]dSize returns the source image's size.
// The unit is the source texture's pixel or texel.
func imageSrc%[1]dSize() vec2 {
	return __imageSrcRegionSizes[%[1]d]
}
".

Definition unsafeAt_format : string := "
func imageSrc%[1]dUnsafeAt(pos vec2) vec4 {
	// pos is the position in positions of the source texture (= 0th image's texture).
	return __texelAt(__t%[1]d, %[2]s)
}
".

Definition pixelsAt_format : string := "
func imageSrc%[1]dAt(pos vec2) vec4 {
	// pos is the position of the source texture (= 0th image's texture).
	// If pos is in the region, the result is (1, 1). Otherwise, either element is 0.
	in := step(__imageSrcRegionOrigins[0], pos) - step(__imageSrcRegionOrigins[0] + __imageSrcRegionSizes[%[1]d], pos)
	return __texelAt(__t%[1]d, %[2]s) * in.x * in.y
}
".

Definition texelsAt_format : string := "
func imageSrc%[1]dAt(pos vec2) vec4 {
	// pos is the position of the source texture (= 0th image's texture).
	// If pos is in the region, the result is (1, 1). Otherwise, either element is 0.
	// With the texel mode, all the source region sizes are the same (#1870).
	// As pos is in texels of the 0th texture, always use the 0th image region size.
	in := step(__imageSrcRegionOrigins[0], pos) - step(__imageSrcRegionOrigins[0] + __imageSrcRegionSizes[0], pos)
	return __texelAt(__t%[1]d, %[2]s) * in.x * in.y
}
".

Definition vertex_text : string := "
var __projectionMatrix mat4

func __vertex(position vec2, texCoord vec2, color vec4) (vec4, vec2, vec4) {
	return __projectionMatrix * vec4(position, 0, 1), texCoord, color
}
".

Definition pixels_pos_format : string :=
  "pos - __imageSrcRegionOrigins[0] + __imageSrcRegionOrigins[%d]".

Definition texels_pos_format : string :=
  "((pos - __imageSrcRegionOrigins[0]) * __imageSrcTextureSizes[0]) / __imageSrcTextureSizes[%[1]d] + __imageSrcRegionOrigins[%[1]d]".

(** ** The compiled program (package [shaderir]) *)

(** Modelled from the spec: the declaration of [shaderir.Program] is not among
    the sources.  The compiled program holds a vertex-function block and a
    fragment-function block, each a pointer that may be nil, and further
    content [X] that this package never inspects. *)
Record Func (B : Type) : Type := { Block : option B }.
Arguments Block {B} f.

Record Program (B X : Type) : Type := {
  VertexFunc : Func B;
  FragmentFunc : Func B;
  Rest : X
}.
Arguments VertexFunc {B X} p.
Arguments FragmentFunc {B X} p.
Arguments Rest {B X} p.

(** A call made by [CompileShader], with its arguments, in program order. *)
Inductive call : Type :=
| CallParseCompilerDirectives (src : list byte)
| CallShaderSuffix (unit : Z)
| CallCompile (src : list byte) (vertexEntry fragmentEntry : string) (imageCount : nat).

(** A Go call either returns or panics (nil pointer dereference). *)
Inductive outcome (A : Type) : Type :=
| Returns (a : A)
| Panics.
Arguments Returns {A} a.
Arguments Panics {A}.

Section Graphics.

Context {E B X : Type}.

(** The constant [graphics.ShaderImageCount], declared in another file of
    the package. *)
Variable ShaderImageCount : nat.

(** The constants [shaderir.Pixels] and [shaderir.Texels] of the integer
    type [shaderir.Unit]. *)
Variables Pixels Texels : Z.

(** The functions of package [shader] that [CompileShader] calls. *)
Variable ParseCompilerDirectives : list byte -> Z * option (error E).
Variable Compile :
  list byte -> string -> string -> nat -> option (Program B X) * option (error E).

(** The local [pos] of one loop iteration: the position handed to
    [__texelAt] for image [i], or the error of the [default] case. *)
Definition slot_pos (unit : Z) (i : nat) : string + error E :=
  if (1 <=? i)%nat then
    if (unit =? Pixels)%Z then
      inl (Sprintf pixels_pos_format [ArgInt (Z.of_nat i)])
    else if (unit =? Texels)%Z then
      inl (Sprintf texels_pos_format [ArgInt (Z.of_nat i)])
    else
      inr (Errorf "graphics: unexpected unit: %d" [ArgInt unit])
  else inl "pos".

(** The second [switch] of the loop body; it has no [default] case. *)
Definition append_at (unit : Z) (i : nat) (pos : string) (shaderSuffix : string) : string :=
  if (unit =? Pixels)%Z then
    shaderSuffix ++ Sprintf pixelsAt_format [ArgInt (Z.of_nat i); ArgStr pos]
  else if (unit =? Texels)%Z then
    shaderSuffix ++ Sprintf texelsAt_format [ArgInt (Z.of_nat i); ArgStr pos]
  else shaderSuffix.

(** The [for] loop with [n] iterations left, at index [i], followed by the
    rest of the function. *)
Fixpoint slots (unit : Z) (n i : nat) (shaderSuffix : string) : string * option (error E) :=
  match n with
  | O => (shaderSuffix ++ vertex_text, None)
  | S n' =>
      let shaderSuffix := shaderSuffix ++ Sprintf accessors_format [ArgInt (Z.of_nat i)] in
      match slot_pos unit i with
      | inr err => (EmptyString, Some err)
      | inl pos =>
          let shaderSuffix :=
            shaderSuffix ++ Sprintf unsafeAt_format [ArgInt (Z.of_nat i); ArgStr pos] in
          let shaderSuffix := append_at unit i pos shaderSuffix in
          slots unit n' (S i) shaderSuffix
      end
  end.

Definition shaderSuffix (unit : Z) : string * option (error E) :=
  slots unit ShaderImageCount 0
    (Sprintf header_format [ArgInt (Z.of_nat ShaderImageCount)]).

Definition vert : string := "__vertex".
Definition frag : string := "Fragment".

(** [CompileShader], returning the calls it made and its outcome.  A nil
    program returned with a nil error makes [ir.VertexFunc] panic. *)
Definition CompileShader (src : list byte)
  : list call * outcome (option (Program B X) * option (error E)) :=
  let log := [CallParseCompilerDirectives src] in
  let (unit, err) := ParseCompilerDirectives src in
  match err with
  | Some e => (log, Returns (None, Some e))
  | None =>
      let log := (log ++ [CallShaderSuffix unit])%list in
      let (suffix, err) := shaderSuffix unit in
      match err with
      | Some e => (log, Returns (None, Some e))
      | None =>
          let buf := (src ++ list_byte_of_string suffix)%list in
          let log := (log ++ [CallCompile buf vert frag ShaderImageCount])%list in
          let (ir, err) := Compile buf vert frag ShaderImageCount in
          match err with
          | Some e => (log, Returns (None, Some e))
          | None =>
              match ir with
              | None => (log, Panics)
              | Some p =>
                  match Block (VertexFunc p) with
                  | None =>
                      (log, Returns (None, Some (Errorf
                         "graphics: vertex shader entry point '%s' is missing"
                         [ArgStr vert])))
                  | Some _ =>
                      match Block (FragmentFunc p) with
                      | None =>
                          (log, Returns (None, Some (Errorf
                             "graphics: fragment shader entry point '%s' is missing"
                             [ArgStr frag])))
                      | Some _ => (log, Returns (Some p, None))
                      end
                  end
              end
          end
      end
  end.

End Graphics.

(** ** Executions of the loop of [shaderSuffix], statement by statement *)

Section LoopSteps.

Context {E : Type}.
Variable ShaderImageCount : nat.
Variables Pixels Texels : Z.

(** The function is either at the loop test with index [i] and the text built
    so far, or has returned. *)
Inductive loop_state : Type :=
| AtTest (i : nat) (shaderSuffix : string)
| Returned (r : string * option (error E)).

Inductive loop_step (unit : Z) : loop_state -> loop_state -> Prop :=
| step_leave i s :
    ~ (i < ShaderImageCount)%nat ->
    loop_step unit (AtTest i s) (Returned (s ++ vertex_text, None))
| step_unexpected_unit i s err :
    (i < ShaderImageCount)%nat ->
    slot_pos Pixels Texels unit i = inr err ->
    loop_step unit (AtTest i s) (Returned (EmptyString, Some err))
| step_iteration i s pos :
    (i < ShaderImageCount)%nat ->
    slot_pos (E:=E) Pixels Texels unit i = inl pos ->
    loop_step unit (AtTest i s)
      (AtTest (S i)
         (append_at Pixels Texels unit i pos
            ((s ++ Sprintf accessors_format [ArgInt (Z.of_nat i)])
               ++ Sprintf unsafeAt_format [ArgInt (Z.of_nat i); ArgStr pos]))).

Inductive loop_steps (unit : Z) : loop_state -> loop_state -> Prop :=
| steps_refl st : loop_steps unit st st
| steps_cons st1 st2 st3 :
    loop_step unit st1 st2 -> loop_steps unit st2 st3 -> loop_steps unit st1 st3.

(** A call of [shaderSuffix unit] that returns [r]. *)
Definition shaderSuffix_returns (unit : Z) (r : string * option (error E)) : Prop :=
  loop_steps unit
    (AtTest 0 (Sprintf header_format [ArgInt (Z.of_nat ShaderImageCount)]))
    (Returned r).

End LoopSteps.

(** ** The emitted fetch functions as Kage syntax *)

(** The three uniform arrays the fetch functions read. *)
Inductive uniform : Type :=
| SrcRegionOrigins
| SrcRegionSizes
| SrcTextureSizes.

Definition uniform_name (u : uniform) : string :=
  match u with
  | SrcRegionOrigins => "__imageSrcRegionOrigins"
  | SrcRegionSizes => "__imageSrcRegionSizes"
  | SrcTextureSizes => "__imageSrcTextureSizes"
  end.

Inductive binop : Type := Add | Sub | Mul | Quo.

Definition binop_text (op : binop) : string :=
  match op with
  | Add => "+"
  | Sub => "-"
  | Mul => "*"
  | Quo => "/"
  end.

Inductive field : Type := FieldX | FieldY.

Definition field_name (f : field) : string :=
  match f with
  | FieldX => "x"
  | FieldY => "y"
  end.

(** Expressions of the fetch functions: the parameter [pos], the local [in],
    an element of a uniform array, a texture variable [__tk], a binary
    operation, a parenthesised expression, the builtins [step] and
    [__texelAt], and a component selection. *)
Inductive expr : Type :=
| EPos
| EIn
| EIndex (u : uniform) (k : nat)
| ETexture (k : nat)
| EBin (op : binop) (a b : expr)
| EParen (e : expr)
| EStep (edge x : expr)
| ETexelAt (t p : expr)
| ESelect (e : expr) (f : field).

Fixpoint print_expr (e : expr) : string :=
  match e with
  | EPos => "pos"
  | EIn => "in"
  | EIndex u k => uniform_name u ++ "[" ++ fmt_d (Z.of_nat k) ++ "]"
  | ETexture k => "__t" ++ fmt_d (Z.of_nat k)
  | EBin op a b => print_expr a ++ " " ++ binop_text op ++ " " ++ print_expr b
  | EParen e => "(" ++ print_expr e ++ ")"
  | EStep edge x => "step(" ++ print_expr edge ++ ", " ++ print_expr x ++ ")"
  | ETexelAt t p => "__texelAt(" ++ print_expr t ++ ", " ++ print_expr p ++ ")"
  | ESelect e f => print_expr e ++ "." ++ field_name f
  end.

(** Go's operator precedence: 5 for [*] and [/], 4 for [+] and [-]; an
    operand that is not a binary operation binds tighter than both. *)
Definition binop_prec (op : binop) : nat :=
  match op with
  | Add | Sub => 4
  | Mul | Quo => 5
  end.

Definition prec (e : expr) : nat :=
  match e with
  | EBin op _ _ => binop_prec op
  | _ => 6
  end.

(** [reads_as_written e]: the text [print_expr e] parses back to [e], binary
    operators being left associative: a left operand binds at least as
    tightly as its operator, a right operand strictly tighter, and the
    operand of a selection is not a binary operation. *)
Fixpoint reads_as_written (e : expr) : bool :=
  match e with
  | EPos | EIn | EIndex _ _ | ETexture _ => true
  | EBin op a b =>
      reads_as_written a && reads_as_written b
      && (binop_prec op <=? prec a)%nat && (binop_prec op <? prec b)%nat
  | EParen e => reads_as_written e
  | EStep a b | ETexelAt a b => reads_as_written a && reads_as_written b
  | ESelect e _ => reads_as_written e && (6 <=? prec e)%nat
  end.

(** The expression without its parentheses. *)
Fixpoint unparen (e : expr) : expr :=
  match e with
  | EBin op a b => EBin op (unparen a) (unparen b)
  | EParen e => unparen e
  | EStep a b => EStep (unparen a) (unparen b)
  | ETexelAt a b => ETexelAt (unparen a) (unparen b)
  | ESelect e f => ESelect (unparen e) f
  | _ => e
  end.

(** The elements of the uniform arrays an expression reads. *)
Fixpoint reads (e : expr) : list (uniform * nat) :=
  match e with
  | EPos | EIn | ETexture _ => []
  | EIndex u k => [(u, k)]
  | EBin _ a b | EStep a b | ETexelAt a b => reads a ++ reads b
  | EParen e | ESelect e _ => reads e
  end.

(** Statements of a fetch function's body. *)
Inductive stmt : Type :=
| SComment (text : string)
| SDefineIn (e : expr)
| SReturn (e : expr).

Definition newline : string := String "010" EmptyString.
Definition tab : string := String "009" EmptyString.

Definition print_stmt (s : stmt) : string :=
  match s with
  | SComment text => tab ++ "// " ++ text ++ newline
  | SDefineIn e => tab ++ "in := " ++ print_expr e ++ newline
  | SReturn e => tab ++ "return " ++ print_expr e ++ newline
  end.

Fixpoint print_body (b : list stmt) : string :=
  match b with
  | [] => EmptyString
  | s :: b' => print_stmt s ++ print_body b'
  end.

(** A function [func name(pos vec2) vec4 { body }]. *)
Record func : Type := { fname : string; fbody : list stmt }.

Definition print_func (f : func) : string :=
  newline ++ "func " ++ fname f ++ "(pos vec2) vec4 {" ++ newline
    ++ print_body (fbody f) ++ "}" ++ newline.

Definition stmt_reads (s : stmt) : list (uniform * nat) :=
  match s with
  | SComment _ => []
  | SDefineIn e | SReturn e => reads e
  end.

Definition func_reads (f : func) : list (uniform * nat) :=
  flat_map stmt_reads (fbody f).

(** The position expressions of the two unit modes for an image [i >= 1], the
    region test and the masked fetch, as the templates write them. *)
Definition origin (k : nat) : expr := EIndex SrcRegionOrigins k.
Definition size (k : nat) : expr := EIndex SrcRegionSizes k.
Definition texSize (k : nat) : expr := EIndex SrcTextureSizes k.

Definition pixels_pos (i : nat) : expr :=
  EBin Add (EBin Sub EPos (origin 0)) (origin i).

Definition texels_pos (i : nat) : expr :=
  EBin Add
    (EBin Quo (EParen (EBin Mul (EParen (EBin Sub EPos (origin 0))) (texSize 0)))
       (texSize i))
    (origin i).

(** [step(origins[0], pos) - step(origins[0] + sizes[k], pos)] *)
Definition region_test (k : nat) : expr :=
  EBin Sub (EStep (origin 0) EPos) (EStep (EBin Add (origin 0) (size k)) EPos).

(** [__texelAt(__ti, p) * in.x * in.y] *)
Definition masked_fetch (i : nat) (p : expr) : expr :=
  EBin Mul (EBin Mul (ETexelAt (ETexture i) p) (ESelect EIn FieldX)) (ESelect EIn FieldY).

Definition unsafeAt_func (i : nat) (p : expr) : func :=
  {| fname := "imageSrc" ++ fmt_d (Z.of_nat i) ++ "UnsafeAt";
     fbody :=
       [SComment "pos is the position in positions of the source texture (= 0th image's texture).";
        SReturn (ETexelAt (ETexture i) p)] |}.

Definition pixelsAt_func (i : nat) (p : expr) : func :=
  {| fname := "imageSrc" ++ fmt_d (Z.of_nat i) ++ "At";
     fbody :=
       [SComment "pos is the position of the source texture (= 0th image's texture).";
        SComment "If pos is in the region, the result is (1, 1). Otherwise, either element is 0.";
        SDefineIn (region_test i);
        SReturn (masked_fetch i p)] |}.

Definition texelsAt_func (i : nat) (p : expr) : func :=
  {| fname := "imageSrc" ++ fmt_d (Z.of_nat i) ++ "At";
     fbody :=
       [SComment "pos is the position of the source texture (= 0th image's texture).";
        SComment "If pos is in the region, the result is (1, 1). Otherwise, either element is 0.";
        SComment "With the texel mode, all the source region sizes are the same (#1870).";
        SComment "As pos is in texels of the 0th texture, always use the 0th image region size.";
        SDefineIn (region_test 0);
        SReturn (masked_fetch i p)] |}.

(** ** Evaluation of the fetch functions

    Scalars are exact rationals: the rounding of the GPU's floating-point
    arithmetic is not modelled. *)

Record vec2 : Type := Vec2 { vx : Q; vy : Q }.
Record vec4 : Type := Vec4 { vr : Q; vg : Q; vb : Q; va : Q }.

Inductive value : Type :=
| VFloat (q : Q)
| VVec2 (v : vec2)
| VVec4 (v : vec4)
| VTexture (k : nat).

Definition scalar_op (op : binop) (a b : Q) : Q :=
  match op with
  | Add => (a + b)%Q
  | Sub => (a - b)%Q
  | Mul => (a * b)%Q
  | Quo => (a / b)%Q
  end.

Definition vec2_map2 (f : Q -> Q -> Q) (a b : vec2) : vec2 :=
  Vec2 (f (vx a) (vx b)) (f (vy a) (vy b)).

Definition vec4_map2 (f : Q -> Q -> Q) (a b : vec4) : vec4 :=
  Vec4 (f (vr a) (vr b)) (f (vg a) (vg b)) (f (vb a) (vb b)) (f (va a) (va b)).

Definition vec2_of (q : Q) : vec2 := Vec2 q q.
Definition vec4_of (q : Q) : vec4 := Vec4 q q q q.

(** A binary operator works component by component on operands of one type,
    and a scalar operand is applied to every component of a vector. *)
Definition value_op (op : binop) (a b : value) : option value :=
  match a, b with
  | VFloat x, VFloat y => Some (VFloat (scalar_op op x y))
  | VVec2 x, VVec2 y => Some (VVec2 (vec2_map2 (scalar_op op) x y))
  | VVec4 x, VVec4 y => Some (VVec4 (vec4_map2 (scalar_op op) x y))
  | VVec2 x, VFloat y => Some (VVec2 (vec2_map2 (scalar_op op) x (vec2_of y)))
  | VFloat x, VVec2 y => Some (VVec2 (vec2_map2 (scalar_op op) (vec2_of x) y))
  | VVec4 x, VFloat y => Some (VVec4 (vec4_map2 (scalar_op op) x (vec4_of y)))
  | VFloat x, VVec4 y => Some (VVec4 (vec4_map2 (scalar_op op) (vec4_of x) y))
  | _, _ => None
  end.

(** [step(edge, x)] is 0 where [x < edge] and 1 elsewhere. *)
Definition step_scalar (edge x : Q) : Q :=
  if Qle_bool edge x then 1%Q else 0%Q.

(** What a fetch function sees: the three uniform arrays and the bound
    textures, [Textures k p] being the texel of texture [__tk] at [p]. *)
Record uniforms : Type := {
  RegionOrigins : nat -> vec2;
  RegionSizes : nat -> vec2;
  TextureSizes : nat -> vec2;
  Textures : nat -> vec2 -> vec4
}.

Definition index (u : uniforms) (a : uniform) (k : nat) : vec2 :=
  match a with
  | SrcRegionOrigins => RegionOrigins u k
  | SrcRegionSizes => RegionSizes u k
  | SrcTextureSizes => TextureSizes u k
  end.

Definition select (v : value) (f : field) : option value :=
  match v with
  | VVec2 a => Some (VFloat (match f with FieldX => vx a | FieldY => vy a end))
  | VVec4 a => Some (VFloat (match f with FieldX => vr a | FieldY => vg a end))
  | _ => None
  end.

(** [eval u pos local e]: the value of [e] for the argument [pos], [local]
    being the value of the local [in] once it is defined. *)
Fixpoint eval (u : uniforms) (pos : vec2) (local : option value) (e : expr) : option value :=
  match e with
  | EPos => Some (VVec2 pos)
  | EIn => local
  | EIndex a k => Some (VVec2 (index u a k))
  | ETexture k => Some (VTexture k)
  | EBin op a b =>
      match eval u pos local a, eval u pos local b with
      | Some x, Some y => value_op op x y
      | _, _ => None
      end
  | EParen e => eval u pos local e
  | EStep edge x =>
      match eval u pos local edge, eval u pos local x with
      | Some (VFloat a), Some (VFloat b) => Some (VFloat (step_scalar a b))
      | Some (VVec2 a), Some (VVec2 b) => Some (VVec2 (vec2_map2 step_scalar a b))
      | _, _ => None
      end
  | ETexelAt t p =>
      match eval u pos local t, eval u pos local p with
      | Some (VTexture k), Some (VVec2 q) => Some (VVec4 (Textures u k q))
      | _, _ => None
      end
  | ESelect e f =>
      match eval u pos local e with
      | Some v => select v f
      | None => None
      end
  end.

Fixpoint run_body (u : uniforms) (pos : vec2) (local : option value) (b : list stmt)
  : option value :=
  match b with
  | [] => None
  | SComment _ :: b' => run_body u pos local b'
  | SDefineIn e :: b' =>
      match eval u pos local e with
      | Some v => run_body u pos (Some v) b'
      | None => None
      end
  | SReturn e :: _ => eval u pos local e
  end.

(** The result of calling the function with argument [pos]. *)
Definition call_func (u : uniforms) (f : func) (pos : vec2) : option value :=
  run_body u pos None (fbody f).

(** [pos] lies in the half-open box of origin [o] and size [s]. *)
Definition inside (o s p : vec2) : bool :=
  Qle_bool (vx o) (vx p) && negb (Qle_bool (vx o + vx s) (vx p))
  && (Qle_bool (vy o) (vy p) && negb (Qle_bool (vy o + vy s) (vy p))).

Definition vec4_eq (a b : vec4) : Prop :=
  (vr a == vr b /\ vg a == vg b /\ vb a == vb b /\ va a == va b)%Q.

Definition vec2_add : vec2 -> vec2 -> vec2 := vec2_map2 Qplus.
Definition vec2_sub : vec2 -> vec2 -> vec2 := vec2_map2 Qminus.
Definition vec2_mul : vec2 -> vec2 -> vec2 := vec2_map2 Qmult.
Definition vec2_div : vec2 -> vec2 -> vec2 := vec2_map2 Qdiv.

(** ** What [shaderSuffix] emits for one image *)

(** The unit modes the two [switch] statements know, and the mode they select
    for a unit value: the [Pixels] case is tried first. *)
Inductive mode : Type := PixelsMode | TexelsMode.

Definition mode_of (Pixels Texels unit : Z) : option mode :=
  if (unit =? Pixels)%Z then Some PixelsMode
  else if (unit =? Texels)%Z then Some TexelsMode
  else None.

(** The position expression of image [i]. *)
Definition pos_expr (m : mode) (i : nat) : expr :=
  match i with
  | O => EPos
  | S _ =>
      match m with
      | PixelsMode => pixels_pos i
      | TexelsMode => texels_pos i
      end
  end.

(** The image whose region size the bounds check of image [i] reads. *)
Definition checked_size (m : mode) (i : nat) : nat :=
  match m with
  | PixelsMode => i
  | TexelsMode => 0
  end.

Definition imageSrcUnsafeAt (m : mode) (i : nat) : func :=
  unsafeAt_func i (pos_expr m i).

Definition imageSrcAt (m : mode) (i : nat) : func :=
  match m with
  | PixelsMode => pixelsAt_func i (pos_expr m i)
  | TexelsMode => texelsAt_func i (pos_expr m i)
  end.

(** The text one loop iteration appends, [pos] being the position text. *)
Definition slot_text (Pixels Texels unit : Z) (i : nat) (pos : string) : string :=
  Sprintf accessors_format [ArgInt (Z.of_nat i)]
    ++ Sprintf unsafeAt_format [ArgInt (Z.of_nat i); ArgStr pos]
    ++ append_at Pixels Texels unit i pos EmptyString.

(** [shaderSuffix unit] succeeds and its text contains the function [f]. *)
(** The text [n] iterations append from index [i] on. *)
Fixpoint slot_texts (Pixels Texels unit : Z) (pos_of : nat -> string) (n i : nat) : string :=
  match n with
  | O => EmptyString
  | S n' =>
      slot_text Pixels Texels unit i (pos_of i)
        ++ slot_texts Pixels Texels unit pos_of n' (S i)
  end.

(** [shaderSuffix unit] succeeds and its text contains the function [f]. *)
Definition emits (E : Type) (ShaderImageCount : nat) (Pixels Texels unit : Z) (f : func)
  : Prop :=
  exists before after : string,
    shaderSuffix (E:=E) ShaderImageCount Pixels Texels unit
    = (before ++ print_func f ++ after, None).

(** [occurs_in needle text]: [needle] is a substring of [text]. *)
Fixpoint occurs_in (needle text : string) : bool :=
  prefix needle text
  || match text with
     | EmptyString => false
     | String _ rest => occurs_in needle rest
     end.

(** The region sizes the bounds check may read are not negative. *)
Definition sizes_nonnegative (u : uniforms) (k : nat) : Prop :=
  (0 <= vx (RegionSizes u k) /\ 0 <= vy (RegionSizes u k))%Q.

(** The position at which image [i] is sampled for the argument [pos]. *)
Definition pos_value (m : mode) (i : nat) (u : uniforms) (pos : vec2) : vec2 :=
  match i with
  | O => pos
  | S _ =>
      match m with
      | PixelsMode =>
          vec2_add (vec2_sub pos (RegionOrigins u 0)) (RegionOrigins u i)
      | TexelsMode =>
          vec2_add
            (vec2_div (vec2_mul (vec2_sub pos (RegionOrigins u 0)) (TextureSizes u 0))
               (TextureSizes u i))
            (RegionOrigins u i)
      end
  end.

(** The value of the local [in] when the bounds check reads the size of
    image [k]. *)
Definition region_mask (u : uniforms) (k : nat) (pos : vec2) : vec2 :=
  vec2_map2 Qminus
    (vec2_map2 step_scalar (RegionOrigins u 0) pos)
    (vec2_map2 step_scalar (vec2_map2 Qplus (RegionOrigins u 0) (RegionSizes u k)) pos).

(** ** Concrete inputs *)

(** Two images whose regions start at the origin of textures of equal size;
    the region of image 0 is 1 by 1, that of image 1 is 2 by 2, and every
    texel is opaque white. *)
Definition two_images : uniforms :=
  {| RegionOrigins := fun _ => Vec2 0 0;
     RegionSizes := fun k => match k with O => Vec2 1 1 | _ => Vec2 2 2 end;
     TextureSizes := fun _ => Vec2 4 4;
     Textures := fun _ _ => Vec4 1 1 1 1 |}.

(** A program with a vertex block and without a fragment block. *)
Definition no_fragment : Program unit unit :=
  {| VertexFunc := {| Block := Some tt |};
     FragmentFunc := {| Block := None |};
     Rest := tt |}.

Definition with_both_blocks : Program unit unit :=
  {| VertexFunc := {| Block := Some tt |};
     FragmentFunc := {| Block := Some tt |};
     Rest := tt |}.

(** A directive parser that accepts every source as pixel-unit (value 1), one
    that rejects every source, and compilers returning the programs above. *)
Definition parse_pixels (src : list byte) : Z * option (error unit) := (1%Z, None).

Definition parse_fails (src : list byte) : Z * option (error unit) :=
  (0%Z, Some (extError tt)).

Definition compile_no_fragment (src : list byte) (v f : string) (n : nat)
  : option (Program unit unit) * option (error unit) :=
  (Some no_fragment, None).

Definition compile_both (src : list byte) (v f : string) (n : nat)
  : option (Program unit unit) * option (error unit) :=
  (Some with_both_blocks, None).

(** ** Notions for the further properties *)

(** The texture variables an expression names. *)
Fixpoint expr_textures (e : expr) : list nat :=
  match e with
  | EPos | EIn | EIndex _ _ => []
  | ETexture k => [k]
  | EBin _ a b | EStep a b | ETexelAt a b => expr_textures a ++ expr_textures b
  | EParen e | ESelect e _ => expr_textures e
  end.

Definition stmt_textures (s : stmt) : list nat :=
  match s with
  | SComment _ => []
  | SDefineIn e | SReturn e => expr_textures e
  end.

Definition func_textures (f : func) : list nat :=
  flat_map stmt_textures (fbody f).

(** The text of image [i] for a mode: the origin and size accessors and the
    two fetch functions. *)
Definition slot_code (m : mode) (i : nat) : string :=
  Sprintf accessors_format [ArgInt (Z.of_nat i)]
    ++ print_func (imageSrcUnsafeAt m i) ++ print_func (imageSrcAt m i).

Fixpoint concat_texts (l : list string) : string :=
  match l with
  | [] => EmptyString
  | t :: l' => t ++ concat_texts l'
  end.

(** The uniforms [u] with other textures bound. *)
Definition with_textures (u : uniforms) (textures : nat -> vec2 -> vec4) : uniforms :=
  {| RegionOrigins := RegionOrigins u;
     RegionSizes := RegionSizes u;
     TextureSizes := TextureSizes u;
     Textures := textures |}.

(** The uniforms [u] with other region sizes. *)
Definition with_sizes (u : uniforms) (sizes : nat -> vec2) : uniforms :=
  {| RegionOrigins := RegionOrigins u;
     RegionSizes := sizes;
     TextureSizes := TextureSizes u;
     Textures := Textures u |}.

(** A compiler that returns a nil program and a nil error. *)
Definition compile_nil (src : list byte) (v f : string) (n : nat)
  : option (Program unit unit) * option (error unit) :=
  (None, None).

(** A directive parser that returns the unit value 7, which is neither unit. *)
Definition parse_unit_seven (src : list byte) : Z * option (error unit) := (7%Z, None).

(** Image 0 occupies the 2 by 2 box at (1, 1); image 1 has an empty region. *)
Definition one_box : uniforms :=
  {| RegionOrigins := fun _ => Vec2 1 1;
     RegionSizes := fun k => match k with O => Vec2 2 2 | _ => Vec2 0 3 end;
     TextureSizes := fun k => match k with O => Vec2 4 4 | _ => Vec2 8 8 end;
     Textures := fun _ _ => Vec4 1 1 1 1 |}.





(** * Properties *)

(** ** Text *)

Lemma string_app_assoc (a b c : string) : (a ++ b) ++ c = a ++ (b ++ c).
Proof. induction a as [|ch a IH]; simpl; [reflexivity | now rewrite IH]. Qed.

Lemma string_app_nil_l (a : string) : EmptyString ++ a = a.
Proof. reflexivity. Qed.

Lemma string_app_nil_r (a : string) : a ++ EmptyString = a.
Proof. induction a as [|ch a IH]; simpl; [reflexivity | now rewrite IH]. Qed.

(** Both sides are the same characters: the template filled in by [Sprintf]
    and the printed syntax. *)
Ltac same_text :=
  cbv [print_func unsafeAt_func pixelsAt_func texelsAt_func fname fbody print_body print_stmt
       pixels_pos texels_pos region_test masked_fetch origin size texSize];
  cbn [print_expr];
  repeat match goal with
         | |- context [print_expr ?p] => generalize (print_expr p); intro
         | |- context [Z.of_nat ?k] => is_var k; generalize (Z.of_nat k); intro
         end;
  cbv -[append fmt_d];
  change (fmt_d 0) with "0";
  repeat rewrite string_app_assoc; cbn [append];
  repeat rewrite string_app_assoc; cbn [append]; reflexivity.

Lemma sprintf_pixels_pos (i : nat) :
  Sprintf pixels_pos_format [ArgInt (Z.of_nat i)] = print_expr (pixels_pos i).
Proof. same_text. Qed.

Lemma sprintf_texels_pos (i : nat) :
  Sprintf texels_pos_format [ArgInt (Z.of_nat i)] = print_expr (texels_pos i).
Proof. same_text. Qed.

Lemma sprintf_unsafeAt (i : nat) (p : expr) :
  Sprintf unsafeAt_format [ArgInt (Z.of_nat i); ArgStr (print_expr p)]
  = print_func (unsafeAt_func i p).
Proof. same_text. Qed.

Lemma sprintf_pixelsAt (i : nat) (p : expr) :
  Sprintf pixelsAt_format [ArgInt (Z.of_nat i); ArgStr (print_expr p)]
  = print_func (pixelsAt_func i p).
Proof. same_text. Qed.

Lemma sprintf_texelsAt (i : nat) (p : expr) :
  Sprintf texelsAt_format [ArgInt (Z.of_nat i); ArgStr (print_expr p)]
  = print_func (texelsAt_func i p).
Proof. same_text. Qed.

Lemma unexpected_unit_message (unit : Z) :
  Sprintf "graphics: unexpected unit: %d" [ArgInt unit]
  = "graphics: unexpected unit: " ++ fmt_d unit.
Proof.
  cbv -[append fmt_d]. now rewrite string_app_nil_r.
Qed.

(** From here on the templates are filled in by the lemmas above only. *)
Opaque Sprintf.

Section Properties.

Context {E : Type}.
Variable N : nat.
Variables Pixels Texels : Z.

(** ** The two switches *)

Lemma mode_of_pixels (unit : Z) :
  mode_of Pixels Texels unit = Some PixelsMode <-> unit = Pixels.
Proof.
  unfold mode_of.
  destruct (Z.eqb_spec unit Pixels) as [->|HP]; [tauto|].
  destruct (Z.eqb_spec unit Texels); split; congruence.
Qed.

Lemma mode_of_texels (unit : Z) :
  mode_of Pixels Texels unit = Some TexelsMode <-> unit = Texels /\ unit <> Pixels.
Proof.
  unfold mode_of.
  destruct (Z.eqb_spec unit Pixels) as [->|HP].
  - split; [discriminate | intros [_ H]; congruence].
  - destruct (Z.eqb_spec unit Texels); split; try tauto; try discriminate.
Qed.

Lemma mode_of_none (unit : Z) :
  mode_of Pixels Texels unit = None <-> unit <> Pixels /\ unit <> Texels.
Proof.
  unfold mode_of.
  destruct (Z.eqb_spec unit Pixels) as [->|HP].
  - split; [discriminate | tauto].
  - destruct (Z.eqb_spec unit Texels); split; try tauto; discriminate.
Qed.

Lemma slot_pos_zero (unit : Z) :
  slot_pos (E:=E) Pixels Texels unit 0 = inl "pos".
Proof. reflexivity. Qed.

Lemma slot_pos_mode (unit : Z) (m : mode) (i : nat) :
  mode_of Pixels Texels unit = Some m ->
  slot_pos (E:=E) Pixels Texels unit i = inl (print_expr (pos_expr m i)).
Proof.
  unfold mode_of, slot_pos. intros Hm.
  destruct i as [|i]; [reflexivity|].
  change (1 <=? S i)%nat with true. cbv iota.
  destruct (unit =? Pixels)%Z.
  - injection Hm as <-. now rewrite sprintf_pixels_pos.
  - destruct (unit =? Texels)%Z; [|discriminate].
    injection Hm as <-. now rewrite sprintf_texels_pos.
Qed.

Lemma slot_pos_unexpected (unit : Z) (i : nat) :
  mode_of Pixels Texels unit = None -> (1 <= i)%nat ->
  slot_pos (E:=E) Pixels Texels unit i
  = inr (fmtError ("graphics: unexpected unit: " ++ fmt_d unit)).
Proof.
  unfold mode_of, slot_pos. intros Hm Hi.
  destruct (Nat.leb_spec 1 i) as [_|]; [|lia].
  destruct (unit =? Pixels)%Z; [discriminate|].
  destruct (unit =? Texels)%Z; [discriminate|].
  unfold Errorf. now rewrite unexpected_unit_message.
Qed.

Lemma append_at_app (unit : Z) (i : nat) (pos acc : string) :
  append_at Pixels Texels unit i pos acc
  = acc ++ append_at Pixels Texels unit i pos EmptyString.
Proof.
  unfold append_at.
  destruct (unit =? Pixels)%Z; [reflexivity|].
  destruct (unit =? Texels)%Z; [reflexivity|].
  now rewrite string_app_nil_r.
Qed.

Lemma append_at_mode (unit : Z) (m : mode) (i : nat) :
  mode_of Pixels Texels unit = Some m ->
  append_at Pixels Texels unit i (print_expr (pos_expr m i)) EmptyString
  = print_func (imageSrcAt m i).
Proof.
  unfold mode_of, append_at, imageSrcAt. intros Hm.
  destruct (unit =? Pixels)%Z.
  - injection Hm as <-. cbn [append]. apply sprintf_pixelsAt.
  - destruct (unit =? Texels)%Z; [|discriminate].
    injection Hm as <-. cbn [append]. apply sprintf_texelsAt.
Qed.

Lemma append_at_none (unit : Z) (i : nat) (pos acc : string) :
  mode_of Pixels Texels unit = None ->
  append_at Pixels Texels unit i pos acc = acc.
Proof.
  unfold mode_of, append_at. intros Hm.
  destruct (unit =? Pixels)%Z; [discriminate|].
  destruct (unit =? Texels)%Z; [discriminate|reflexivity].
Qed.

Lemma slot_text_mode (unit : Z) (m : mode) (i : nat) :
  mode_of Pixels Texels unit = Some m ->
  slot_text Pixels Texels unit i (print_expr (pos_expr m i))
  = Sprintf accessors_format [ArgInt (Z.of_nat i)]
      ++ print_func (imageSrcUnsafeAt m i) ++ print_func (imageSrcAt m i).
Proof.
  intros Hm. unfold slot_text, imageSrcUnsafeAt.
  now rewrite sprintf_unsafeAt, (append_at_mode _ _ _ Hm).
Qed.

(** ** The loop *)

Lemma slots_closed_form (unit : Z) (pos_of : nat -> string) (n i : nat) (acc : string) :
  (forall j, (i <= j < i + n)%nat -> slot_pos (E:=E) Pixels Texels unit j = inl (pos_of j)) ->
  slots (E:=E) Pixels Texels unit n i acc
  = (acc ++ slot_texts Pixels Texels unit pos_of n i ++ vertex_text, None).
Proof.
  revert i acc. induction n as [|n IH]; intros i acc Hpos.
  - reflexivity.
  - cbn [slots slot_texts].
    rewrite (Hpos i) by lia.
    rewrite IH by (intros j Hj; apply Hpos; lia).
    rewrite append_at_app. unfold slot_text.
    now rewrite !string_app_assoc.
Qed.

Lemma slot_texts_contains (unit : Z) (pos_of : nat -> string) (n i k : nat) :
  (i <= k < i + n)%nat ->
  exists before after : string,
    slot_texts Pixels Texels unit pos_of n i
    = before ++ slot_text Pixels Texels unit k (pos_of k) ++ after.
Proof.
  revert i. induction n as [|n IH]; intros i Hk; [lia|].
  cbn [slot_texts].
  destruct (Nat.eq_dec i k) as [->|Hne].
  - exists EmptyString, (slot_texts Pixels Texels unit pos_of n (S k)).
    now rewrite string_app_nil_l.
  - destruct (IH (S i)) as (b & a & Heq); [lia|].
    exists (slot_text Pixels Texels unit i (pos_of i) ++ b), a.
    now rewrite Heq, string_app_assoc.
Qed.

Lemma shaderSuffix_mode (unit : Z) (m : mode) :
  mode_of Pixels Texels unit = Some m ->
  shaderSuffix (E:=E) N Pixels Texels unit
  = (Sprintf header_format [ArgInt (Z.of_nat N)]
       ++ slot_texts Pixels Texels unit (fun i => print_expr (pos_expr m i)) N 0
       ++ vertex_text, None).
Proof.
  intros Hm. unfold shaderSuffix.
  apply slots_closed_form. intros j _. now apply slot_pos_mode.
Qed.

Lemma emits_slot (unit : Z) (m : mode) (k : nat) :
  mode_of Pixels Texels unit = Some m -> (k < N)%nat ->
  emits E N Pixels Texels unit (imageSrcUnsafeAt m k)
  /\ emits E N Pixels Texels unit (imageSrcAt m k).
Proof.
  intros Hm Hk. unfold emits. rewrite (shaderSuffix_mode _ _ Hm).
  destruct (slot_texts_contains unit (fun i => print_expr (pos_expr m i)) N 0 k)
    as (b & a & Heq); [lia|].
  rewrite Heq, (slot_text_mode _ _ _ Hm). split.
  - exists (Sprintf header_format [ArgInt (Z.of_nat N)] ++ b
            ++ Sprintf accessors_format [ArgInt (Z.of_nat k)]).
    exists (print_func (imageSrcAt m k) ++ a ++ vertex_text).
    now rewrite !string_app_assoc.
  - exists (Sprintf header_format [ArgInt (Z.of_nat N)] ++ b
            ++ Sprintf accessors_format [ArgInt (Z.of_nat k)]
            ++ print_func (imageSrcUnsafeAt m k)).
    exists (a ++ vertex_text).
    now rewrite !string_app_assoc.
Qed.

Lemma slot_texts_same_mode (unit unit' Pixels' Texels' : Z) (m : mode) (n i : nat) :
  mode_of Pixels Texels unit = Some m ->
  mode_of Pixels' Texels' unit' = Some m ->
  slot_texts Pixels Texels unit (fun k => print_expr (pos_expr m k)) n i
  = slot_texts Pixels' Texels' unit' (fun k => print_expr (pos_expr m k)) n i.
Proof.
  intros Hm Hm'. revert i. induction n as [|n IH]; intros i; [reflexivity|].
  cbn [slot_texts]. rewrite IH.
  unfold slot_text.
  rewrite (append_at_mode unit m i Hm).
  unfold mode_of, append_at, imageSrcAt in *.
  destruct (unit' =? Pixels')%Z.
  - injection Hm' as <-. cbn [append]. now rewrite sprintf_pixelsAt.
  - destruct (unit' =? Texels')%Z; [|discriminate].
    injection Hm' as <-. cbn [append]. now rewrite sprintf_texelsAt.
Qed.

(** The loop stops with the error of the [default] case at index 1 whatever
    text has been built. *)
Lemma slots_unexpected (unit : Z) (n : nat) (acc : string) :
  mode_of Pixels Texels unit = None ->
  slots (E:=E) Pixels Texels unit (S (S n)) 0 acc
  = (EmptyString, Some (fmtError ("graphics: unexpected unit: " ++ fmt_d unit))).
Proof.
  intros Hm. cbn [slots]. rewrite slot_pos_zero.
  now rewrite (slot_pos_unexpected unit 1 Hm) by lia.
Qed.

(** ** Executions of the loop *)

Lemma loop_step_functional (unit : Z) (st a b : loop_state) :
  loop_step (E:=E) N Pixels Texels unit st a ->
  loop_step (E:=E) N Pixels Texels unit st b -> a = b.
Proof.
  intros Ha Hb.
  destruct Ha as [i s Hge|i s err Hlt Hpos|i s pos Hlt Hpos];
    inversion Hb as [i' s' Hge'|i' s' err' Hlt' Hpos'|i' s' pos' Hlt' Hpos'];
    subst i' s'; try contradiction.
  - reflexivity.
  - rewrite Hpos in Hpos'. injection Hpos' as <-. reflexivity.
  - rewrite Hpos in Hpos'. discriminate Hpos'.
  - rewrite Hpos in Hpos'. discriminate Hpos'.
  - rewrite Hpos in Hpos'. injection Hpos' as <-. reflexivity.
Qed.

Lemma returned_is_final (unit : Z) (r : string * option (error E)) (st : loop_state) :
  loop_steps N Pixels Texels unit (Returned r) st -> st = Returned r.
Proof.
  intros H. inversion H as [|? ? ? Hstep]; subst; [reflexivity|]. inversion Hstep.
Qed.

Lemma loop_steps_result_unique (unit : Z) (st : loop_state) (r1 r2 : string * option (error E)) :
  loop_steps N Pixels Texels unit st (Returned r1) ->
  loop_steps N Pixels Texels unit st (Returned r2) -> r1 = r2.
Proof.
  intros H1. revert r2.
  remember (Returned r1) as fin eqn:Hfin.
  induction H1 as [st|st1 st2 st3 Hstep Hrest IH]; intros r2 H2.
  - subst st. apply returned_is_final in H2. congruence.
  - inversion H2 as [|? st2' ? Hstep' Hrest']; subst.
    + inversion Hstep.
    + rewrite (loop_step_functional _ _ _ _ Hstep' Hstep) in Hrest'.
      now apply IH.
Qed.

Lemma slots_runs (unit : Z) (n i : nat) (acc : string) :
  (i + n = N)%nat ->
  loop_steps N Pixels Texels unit (AtTest i acc)
    (Returned (slots (E:=E) Pixels Texels unit n i acc)).
Proof.
  revert i acc. induction n as [|n IH]; intros i acc Hn.
  - cbn [slots]. eapply steps_cons; [apply step_leave; lia | apply steps_refl].
  - cbn [slots].
    destruct (slot_pos Pixels Texels unit i) as [pos|err] eqn:Hpos.
    + eapply steps_cons; [apply (step_iteration _ _ _ unit i acc pos); [lia|exact Hpos]|].
      apply IH. lia.
    + eapply steps_cons; [apply (step_unexpected_unit _ _ _ unit i acc err); [lia|exact Hpos]|].
      apply steps_refl.
Qed.

(** The function [shaderSuffix] computes the result of the one execution its
    statements have. *)
Lemma shaderSuffix_returns_iff (unit : Z) (r : string * option (error E)) :
  shaderSuffix_returns N Pixels Texels unit r <-> r = shaderSuffix N Pixels Texels unit.
Proof.
  unfold shaderSuffix_returns, shaderSuffix. split.
  - intros Hr. eapply loop_steps_result_unique; [exact Hr|].
    apply slots_runs. lia.
  - intros ->. apply slots_runs. lia.
Qed.

(** ** Values of the emitted functions *)

Lemma eval_pos_expr (m : mode) (i : nat) (u : uniforms) (pos : vec2) (local : option value) :
  eval u pos local (pos_expr m i) = Some (VVec2 (pos_value m i u pos)).
Proof. destruct i, m; reflexivity. Qed.

Lemma call_imageSrcUnsafeAt (m : mode) (i : nat) (u : uniforms) (pos : vec2) :
  call_func u (imageSrcUnsafeAt m i) pos
  = Some (VVec4 (Textures u i (pos_value m i u pos))).
Proof.
  unfold call_func, imageSrcUnsafeAt, unsafeAt_func.
  generalize (eval_pos_expr m i u pos). generalize (pos_expr m i). intros p Hp.
  cbn [fbody run_body eval]. now rewrite Hp.
Qed.

Lemma call_imageSrcAt (m : mode) (i : nat) (u : uniforms) (pos : vec2) :
  call_func u (imageSrcAt m i) pos
  = Some (VVec4
      (vec4_map2 Qmult
         (vec4_map2 Qmult (Textures u i (pos_value m i u pos))
            (vec4_of (vx (region_mask u (checked_size m i) pos))))
         (vec4_of (vy (region_mask u (checked_size m i) pos))))).
Proof.
  unfold call_func, imageSrcAt.
  generalize (eval_pos_expr m i u pos). generalize (pos_expr m i). intros p Hp.
  destruct m; cbn [fbody pixelsAt_func texelsAt_func run_body eval region_test masked_fetch
                   origin size value_op];
    rewrite Hp; reflexivity.
Qed.

Lemma step_difference (o s p : Q) :
  (0 <= s)%Q ->
  (step_scalar o p - step_scalar (o + s) p
   == if Qle_bool o p && negb (Qle_bool (o + s) p) then 1 else 0)%Q.
Proof.
  intros Hs. unfold step_scalar.
  destruct (Qle_bool o p) eqn:Ho, (Qle_bool (o + s) p) eqn:Hos; cbn [andb negb];
    try (now compute).
  exfalso. apply Qle_bool_iff in Hos.
  assert (Hle : (o <= p)%Q) by lra.
  apply Qle_bool_iff in Hle. congruence.
Qed.

Lemma masked_component (t mx my : Q) (bx by_ : bool) :
  (mx == if bx then 1 else 0)%Q -> (my == if by_ then 1 else 0)%Q ->
  (t * mx * my == if bx && by_ then t else 0)%Q.
Proof.
  intros -> ->. destruct bx, by_; cbn [andb]; ring.
Qed.

Lemma Qle_bool_ext (a b c d : Q) :
  ((a <= b)%Q <-> (c <= d)%Q) -> Qle_bool a b = Qle_bool c d.
Proof.
  intros H.
  destruct (Qle_bool a b) eqn:Hab, (Qle_bool c d) eqn:Hcd; try reflexivity.
  - apply Qle_bool_iff, H, Qle_bool_iff in Hab. congruence.
  - apply Qle_bool_iff, H, Qle_bool_iff in Hcd. congruence.
Qed.


End Properties.





(** * The claims about [shaderSuffix] *)

Section SuffixClaims.

Context {E : Type}.
Variable N : nat.
Variables Pixels Texels : Z.

(** C2: with at least two images and the unit [Pixels], the position of an
    image [i >= 1] is the text [pos - origins[0] + origins[i]]; it reads as the
    sum [(pos - origins[0]) + origins[i]], evaluates to that translation, reads
    no texture size, and both fetch functions of image [i] in the returned
    text sample at it. *)
Theorem pixels_position_is_translation (unit : Z) (i : nat) :
  (2 <= N)%nat -> unit = Pixels -> (1 <= i < N)%nat ->
  slot_pos (E:=E) Pixels Texels unit i
  = inl ("pos - __imageSrcRegionOrigins[0] + __imageSrcRegionOrigins["
           ++ fmt_d (Z.of_nat i) ++ "]")
  /\ print_expr (EBin Add (EBin Sub EPos (origin 0)) (origin i))
     = "pos - __imageSrcRegionOrigins[0] + __imageSrcRegionOrigins["
         ++ fmt_d (Z.of_nat i) ++ "]"
  /\ reads_as_written (EBin Add (EBin Sub EPos (origin 0)) (origin i)) = true
  /\ (forall u pos local,
        eval u pos local (pixels_pos i)
        = Some (VVec2 (vec2_add (vec2_sub pos (RegionOrigins u 0)) (RegionOrigins u i))))
  /\ (forall k, ~ In (SrcTextureSizes, k) (reads (pixels_pos i)))
  /\ emits E N Pixels Texels unit (unsafeAt_func i (pixels_pos i))
  /\ emits E N Pixels Texels unit (pixelsAt_func i (pixels_pos i)).
Proof.
  intros _ Hunit Hi.
  assert (Hm : mode_of Pixels Texels unit = Some PixelsMode) by now apply mode_of_pixels.
  assert (Htext : print_expr (pixels_pos i)
                  = "pos - __imageSrcRegionOrigins[0] + __imageSrcRegionOrigins["
                      ++ fmt_d (Z.of_nat i) ++ "]").
  { unfold pixels_pos, origin. cbn [print_expr uniform_name binop_text].
    change (fmt_d (Z.of_nat 0)) with "0".
    rewrite !string_app_assoc. reflexivity. }
  destruct (emits_slot (E:=E) N Pixels Texels unit PixelsMode i Hm) as [Hu Ha]; [lia|].
  unfold imageSrcUnsafeAt, imageSrcAt in Hu, Ha.
  assert (Hpe : pos_expr PixelsMode i = pixels_pos i) by (destruct i; [lia|reflexivity]).
  rewrite Hpe in Hu, Ha.
  repeat split; try assumption.
  - rewrite (slot_pos_mode Pixels Texels unit PixelsMode i Hm), Hpe. now rewrite Htext.
  - intros k [H|[H|[]]]; discriminate H.
Qed.

(** C1: with at least two images and the unit [Texels], the bounds-checked
    fetch function of an image [i >= 1] in the returned text samples at
    [((pos - origins[0]) * texSizes[0]) / texSizes[i] + origins[i]], which
    reads as, and evaluates to, [((pos - origins[0]) * texSizes[0] /
    texSizes[i]) + origins[i]]; the only region size the function reads is
    that of image 0, and its result does not depend on the other sizes. *)
Theorem texels_position_and_bounds (unit : Z) (i : nat) :
  (2 <= N)%nat -> unit = Texels -> Pixels <> Texels -> (1 <= i < N)%nat ->
  emits E N Pixels Texels unit (texelsAt_func i (texels_pos i))
  /\ print_expr (texels_pos i)
     = "((pos - __imageSrcRegionOrigins[0]) * __imageSrcTextureSizes[0]) / __imageSrcTextureSizes["
         ++ fmt_d (Z.of_nat i) ++ "] + __imageSrcRegionOrigins[" ++ fmt_d (Z.of_nat i) ++ "]"
  /\ reads_as_written (texels_pos i) = true
  /\ unparen (texels_pos i)
     = unparen (EBin Add
         (EParen (EBin Quo (EBin Mul (EParen (EBin Sub EPos (origin 0))) (texSize 0))
            (texSize i)))
         (origin i))
  /\ (forall u pos local,
        eval u pos local (texels_pos i)
        = Some (VVec2
            (vec2_add
               (vec2_div (vec2_mul (vec2_sub pos (RegionOrigins u 0)) (TextureSizes u 0))
                  (TextureSizes u i))
               (RegionOrigins u i))))
  /\ In (SDefineIn (region_test 0)) (fbody (texelsAt_func i (texels_pos i)))
  /\ (forall k, In (SrcRegionSizes, k) (func_reads (texelsAt_func i (texels_pos i)))
                <-> k = 0%nat)
  /\ (forall u sizes pos,
        sizes 0%nat = RegionSizes u 0 ->
        call_func
          {| RegionOrigins := RegionOrigins u; RegionSizes := sizes;
             TextureSizes := TextureSizes u; Textures := Textures u |}
          (texelsAt_func i (texels_pos i)) pos
        = call_func u (texelsAt_func i (texels_pos i)) pos).
Proof.
  intros _ Hunit Hne Hi.
  assert (Hm : mode_of Pixels Texels unit = Some TexelsMode)
    by (apply mode_of_texels; split; congruence).
  destruct (emits_slot (E:=E) N Pixels Texels unit TexelsMode i Hm) as [_ Ha]; [lia|].
  unfold imageSrcAt in Ha.
  assert (Hpe : pos_expr TexelsMode i = texels_pos i) by (destruct i; [lia|reflexivity]).
  rewrite Hpe in Ha.
  repeat split; try assumption; try reflexivity.
  - unfold texels_pos, origin, texSize. cbn [print_expr uniform_name binop_text].
    change (fmt_d (Z.of_nat 0)) with "0".
    rewrite !string_app_assoc. reflexivity.
  - cbn. tauto.
  - cbn. intros H.
    repeat (destruct H as [H|H]; [try discriminate H; injection H as <-; reflexivity|]).
    destruct H.
  - intros ->. cbn. tauto.
  - intros u sizes pos H0.
    unfold call_func, texelsAt_func.
    cbn [fbody run_body eval region_test texels_pos masked_fetch origin size texSize index
         RegionOrigins RegionSizes TextureSizes Textures].
    now rewrite H0.
Qed.

(** C9: for a unit the switches know and at least one image, the position
    of image 0 is the text [pos] and both fetch functions of image 0 in the
    returned text sample texture 0 at the argument itself; with one image the
    returned text holds no position of the form [pos - origins[0] ...]. *)
Theorem first_image_uses_raw_position (unit : Z) (m : mode) :
  mode_of Pixels Texels unit = Some m -> (1 <= N)%nat ->
  slot_pos (E:=E) Pixels Texels unit 0 = inl "pos"
  /\ print_expr EPos = "pos"
  /\ emits E N Pixels Texels unit (unsafeAt_func 0 EPos)
  /\ emits E N Pixels Texels unit
       (match m with
        | PixelsMode => pixelsAt_func 0 EPos
        | TexelsMode => texelsAt_func 0 EPos
        end)
  /\ (forall u pos,
        call_func u (unsafeAt_func 0 EPos) pos = Some (VVec4 (Textures u 0 pos)))
  /\ (forall u pos,
        call_func u (imageSrcAt m 0) pos
        = Some (VVec4
            (vec4_map2 Qmult
               (vec4_map2 Qmult (Textures u 0 pos) (vec4_of (vx (region_mask u 0 pos))))
               (vec4_of (vy (region_mask u 0 pos))))))
  /\ (N = 1%nat ->
      exists text,
        shaderSuffix (E:=E) N Pixels Texels unit = (text, None)
        /\ text = Sprintf header_format [ArgInt 1]
                    ++ Sprintf accessors_format [ArgInt 0]
                    ++ print_func (imageSrcUnsafeAt m 0)
                    ++ print_func (imageSrcAt m 0)
                    ++ vertex_text
        /\ occurs_in "pos - __imageSrcRegionOrigins[0]" text = false
        /\ occurs_in "__imageSrcTextureSizes[0])" text = false).
Proof.
  intros Hm HN.
  destruct (emits_slot (E:=E) N Pixels Texels unit m 0 Hm) as [Hu Ha]; [lia|].
  split; [reflexivity|]. split; [reflexivity|]. split; [exact Hu|].
  split; [destruct m; exact Ha|]. split; [|split].
  - intros u pos. apply (call_imageSrcUnsafeAt m 0).
  - intros u pos. rewrite call_imageSrcAt. now destruct m.
  - intros ->. eexists. split; [|split; [reflexivity|]].
    + rewrite (shaderSuffix_mode 1 Pixels Texels unit m Hm).
      cbn [slot_texts]. rewrite (slot_text_mode Pixels Texels unit m 0 Hm).
      rewrite string_app_nil_r, !string_app_assoc. reflexivity.
    + destruct m; split; vm_compute; reflexivity.
Qed.

(** C10: with one image the unit is not inspected for the position, and
    [shaderSuffix] returns a text and no error for every unit value; for a
    unit that is neither [Pixels] nor [Texels] the text holds
    [imageSrc0UnsafeAt] and no [imageSrc0At]. *)
Theorem single_image_accepts_any_unit (unit : Z) :
  slot_pos (E:=E) Pixels Texels unit 0 = inl "pos"
  /\ shaderSuffix (E:=E) 1 Pixels Texels unit
     = (Sprintf header_format [ArgInt 1]
          ++ Sprintf accessors_format [ArgInt 0]
          ++ Sprintf unsafeAt_format [ArgInt 0; ArgStr "pos"]
          ++ append_at Pixels Texels unit 0 "pos" EmptyString
          ++ vertex_text, None)
  /\ (unit <> Pixels -> unit <> Texels ->
      exists text,
        shaderSuffix (E:=E) 1 Pixels Texels unit = (text, None)
        /\ text = Sprintf header_format [ArgInt 1]
                    ++ Sprintf accessors_format [ArgInt 0]
                    ++ print_func (unsafeAt_func 0 EPos)
                    ++ vertex_text
        /\ occurs_in "imageSrc0UnsafeAt(" text = true
        /\ occurs_in "imageSrc0At(" text = false).
Proof.
  assert (Hall : shaderSuffix (E:=E) 1 Pixels Texels unit
     = (Sprintf header_format [ArgInt 1]
          ++ Sprintf accessors_format [ArgInt 0]
          ++ Sprintf unsafeAt_format [ArgInt 0; ArgStr "pos"]
          ++ append_at Pixels Texels unit 0 "pos" EmptyString
          ++ vertex_text, None)).
  { unfold shaderSuffix.
    rewrite (slots_closed_form Pixels Texels unit (fun _ => "pos") 1 0).
    - cbn [slot_texts]. unfold slot_text.
      rewrite string_app_nil_r, !string_app_assoc. reflexivity.
    - intros j Hj. assert (j = 0%nat) as -> by lia. reflexivity. }
  split; [reflexivity|]. split; [exact Hall|].
  intros HP HT. eexists. split; [|split; [reflexivity|]].
  - rewrite Hall.
    rewrite (append_at_none Pixels Texels unit 0 "pos" EmptyString)
      by (apply mode_of_none; tauto).
    rewrite string_app_nil_l.
    change (Sprintf unsafeAt_format [ArgInt 0; ArgStr "pos"])
      with (Sprintf unsafeAt_format [ArgInt (Z.of_nat 0); ArgStr (print_expr EPos)]).
    now rewrite sprintf_unsafeAt.
  - split; vm_compute; reflexivity.
Qed.

(** C5: the image count is a constant of the package, at least 3 since the
    example shader [examples/shader/water.go] calls [imageSrc2At].  With two
    images or more, for a unit that is neither [Pixels] nor [Texels],
    [shaderSuffix] returns the empty text and the error
    [graphics: unexpected unit: <unit>]; no execution of its statements
    returns anything else, and the error is returned by the first iteration
    that looks at the unit, the one of image 1, which follows the iteration
    of image 0 at once. *)
Theorem unexpected_unit_is_an_error (unit : Z) :
  (2 <= N)%nat -> unit <> Pixels -> unit <> Texels ->
  shaderSuffix (E:=E) N Pixels Texels unit
  = (EmptyString, Some (fmtError ("graphics: unexpected unit: " ++ fmt_d unit)))
  /\ (forall r,
        shaderSuffix_returns (E:=E) N Pixels Texels unit r ->
        r = (EmptyString, Some (fmtError ("graphics: unexpected unit: " ++ fmt_d unit))))
  /\ (exists text,
        loop_step (E:=E) N Pixels Texels unit
          (AtTest 0 (Sprintf header_format [ArgInt (Z.of_nat N)])) (AtTest 1 text)
        /\ loop_step (E:=E) N Pixels Texels unit (AtTest 1 text)
             (Returned (EmptyString,
                        Some (fmtError ("graphics: unexpected unit: " ++ fmt_d unit))))).
Proof.
  intros HN HP HT.
  assert (Hm : mode_of Pixels Texels unit = None) by (apply mode_of_none; tauto).
  assert (Hs : shaderSuffix (E:=E) N Pixels Texels unit
               = (EmptyString, Some (fmtError ("graphics: unexpected unit: " ++ fmt_d unit)))).
  { unfold shaderSuffix. destruct N as [|[|n]]; try lia.
    now apply slots_unexpected. }
  split; [exact Hs|]. split.
  - intros r Hr. apply shaderSuffix_returns_iff in Hr. congruence.
  - eexists. split.
    + apply (step_iteration N Pixels Texels unit 0 _ "pos"); [lia|reflexivity].
    + apply step_unexpected_unit; [lia|].
      apply slot_pos_unexpected; [exact Hm|lia].
Qed.

(** C6: with at least one image and a unit the switches know, [shaderSuffix]
    returns a text and no error, every execution of its statements returns
    exactly that text, and the text is the same for every unit value and every
    numbering of the units that select the same mode. *)
Theorem suffix_text_is_determined (unit : Z) (m : mode) :
  (1 <= N)%nat -> mode_of Pixels Texels unit = Some m ->
  exists text,
    shaderSuffix (E:=E) N Pixels Texels unit = (text, None)
    /\ (forall r, shaderSuffix_returns (E:=E) N Pixels Texels unit r <-> r = (text, None))
    /\ (forall r1 r2,
          shaderSuffix_returns (E:=E) N Pixels Texels unit r1 ->
          shaderSuffix_returns (E:=E) N Pixels Texels unit r2 -> r1 = r2)
    /\ (forall Pixels' Texels' unit',
          mode_of Pixels' Texels' unit' = Some m ->
          shaderSuffix (E:=E) N Pixels' Texels' unit' = (text, None)).
Proof.
  intros _ Hm. eexists. split; [apply (shaderSuffix_mode N Pixels Texels unit m Hm)|].
  split; [|split].
  - intros r. rewrite shaderSuffix_returns_iff.
    now rewrite (shaderSuffix_mode N Pixels Texels unit m Hm).
  - intros r1 r2 H1 H2.
    apply shaderSuffix_returns_iff in H1, H2. congruence.
  - intros P' T' u' Hm'.
    rewrite (shaderSuffix_mode N P' T' u' m Hm').
    now rewrite (slot_texts_same_mode P' T' u' unit Pixels Texels m N 0 Hm' Hm).
Qed.


End SuffixClaims.

(** * The claims about [CompileShader] *)

Lemma vertex_missing_message :
  Sprintf "graphics: vertex shader entry point '%s' is missing" [ArgStr vert]
  = "graphics: vertex shader entry point '__vertex' is missing".
Proof. vm_compute. reflexivity. Qed.

Lemma fragment_missing_message :
  Sprintf "graphics: fragment shader entry point '%s' is missing" [ArgStr frag]
  = "graphics: fragment shader entry point 'Fragment' is missing".
Proof. vm_compute. reflexivity. Qed.

Section CompileClaims.

Context {E B X : Type}.
Variable N : nat.
Variables Pixels Texels : Z.
Variable ParseCompilerDirectives : list byte -> Z * option (error E).
Variable Compile :
  list byte -> string -> string -> nat -> option (Program B X) * option (error E).

(** C4: when the directive parser fails on the source, [CompileShader] returns
    no program and the parser's error itself, and the parser is the only
    function it has called: neither [shaderSuffix] nor the compiler runs. *)
Theorem parse_error_is_returned (src : list byte) (unit : Z) (err : error E) :
  ParseCompilerDirectives src = (unit, Some err) ->
  CompileShader N Pixels Texels ParseCompilerDirectives Compile src
  = ([CallParseCompilerDirectives src], Returns (None, Some err)).
Proof.
  intros Hparse. unfold CompileShader. rewrite Hparse. reflexivity.
Qed.

(** C8: when the directives parse and the suffix is built, [CompileShader]
    calls the compiler once, on the source followed by the suffix, with the
    entry names [__vertex] and [Fragment] and the image count; it returns the
    compiler's program itself when that has both blocks, and the compiler's
    error itself when there is one. *)
Theorem compiles_source_then_suffix (src : list byte) (unit : Z) (suffix : string) :
  ParseCompilerDirectives src = (unit, None) ->
  shaderSuffix (E:=E) N Pixels Texels unit = (suffix, None) ->
  fst (CompileShader N Pixels Texels ParseCompilerDirectives Compile src)
  = [CallParseCompilerDirectives src;
     CallShaderSuffix unit;
     CallCompile (src ++ list_byte_of_string suffix)%list "__vertex" "Fragment" N]
  /\ (forall p vblock fblock,
        Compile (src ++ list_byte_of_string suffix)%list "__vertex" "Fragment" N
        = (Some p, None) ->
        Block (VertexFunc p) = Some vblock ->
        Block (FragmentFunc p) = Some fblock ->
        snd (CompileShader N Pixels Texels ParseCompilerDirectives Compile src)
        = Returns (Some p, None))
  /\ (forall ir err,
        Compile (src ++ list_byte_of_string suffix)%list "__vertex" "Fragment" N
        = (ir, Some err) ->
        snd (CompileShader N Pixels Texels ParseCompilerDirectives Compile src)
        = Returns (None, Some err)).
Proof.
  intros Hparse Hsuffix. unfold CompileShader. rewrite Hparse, Hsuffix.
  fold vert frag. split; [|split].
  - destruct (Compile _ vert frag N) as [[p|] [err|]]; try reflexivity.
    destruct (Block (VertexFunc p)); [|reflexivity].
    destruct (Block (FragmentFunc p)); reflexivity.
  - intros p vblock fblock Hc Hv Hf. rewrite Hc, Hv, Hf. reflexivity.
  - intros ir err Hc. rewrite Hc. reflexivity.
Qed.

(** C3: for a program the compiler returns without error, [CompileShader]
    looks at the vertex block and then at the fragment block: a nil vertex
    block gives the error naming [__vertex], otherwise a nil fragment block
    gives the error naming [Fragment], in both cases with no program; the two
    errors differ, and a program with both blocks is returned. *)
Theorem missing_entry_points (src : list byte) (unit : Z) (suffix : string)
    (p : Program B X) :
  ParseCompilerDirectives src = (unit, None) ->
  shaderSuffix (E:=E) N Pixels Texels unit = (suffix, None) ->
  Compile (src ++ list_byte_of_string suffix)%list "__vertex" "Fragment" N
  = (Some p, None) ->
  (Block (VertexFunc p) = None ->
   snd (CompileShader N Pixels Texels ParseCompilerDirectives Compile src)
   = Returns (None, Some (fmtError
       "graphics: vertex shader entry point '__vertex' is missing")))
  /\ (Block (VertexFunc p) <> None -> Block (FragmentFunc p) = None ->
      snd (CompileShader N Pixels Texels ParseCompilerDirectives Compile src)
      = Returns (None, Some (fmtError
          "graphics: fragment shader entry point 'Fragment' is missing")))
  /\ (Block (VertexFunc p) <> None -> Block (FragmentFunc p) <> None ->
      snd (CompileShader N Pixels Texels ParseCompilerDirectives Compile src)
      = Returns (Some p, None))
  /\ fmtError (E:=E) "graphics: vertex shader entry point '__vertex' is missing"
     <> fmtError "graphics: fragment shader entry point 'Fragment' is missing".
Proof.
  intros Hparse Hsuffix Hcompile. unfold CompileShader.
  rewrite Hparse, Hsuffix. fold vert frag.
  change "__vertex" with vert in Hcompile. change "Fragment" with frag in Hcompile.
  rewrite Hcompile. unfold Errorf.
  rewrite vertex_missing_message, fragment_missing_message.
  split; [|split; [|split]].
  - intros ->. reflexivity.
  - intros Hv ->. destruct (Block (VertexFunc p)); [reflexivity|congruence].
  - intros Hv Hf.
    destruct (Block (VertexFunc p)); [|congruence].
    destruct (Block (FragmentFunc p)); [reflexivity|congruence].
  - discriminate.
Qed.

End CompileClaims.

(** * The claims at concrete inputs

    In the inputs below [Texels] is 0 and [Pixels] is 1. *)

Lemma texels_position_and_bounds_witness :
  (2 <= 2)%nat /\ 0%Z = 0%Z /\ 1%Z <> 0%Z /\ (1 <= 1 < 2)%nat
  /\ emits Empty_set 2 1 0 0 (texelsAt_func 1 (texels_pos 1))
  /\ (forall k, In (SrcRegionSizes, k) (func_reads (texelsAt_func 1 (texels_pos 1)))
                <-> k = 0%nat).
Proof.
  assert (H1 : (2 <= 2)%nat) by lia.
  assert (H2 : 1%Z <> 0%Z) by discriminate.
  assert (H3 : (1 <= 1 < 2)%nat) by lia.
  pose proof (texels_position_and_bounds (E:=Empty_set) 2 1 0 0 1 H1 eq_refl H2 H3) as H.
  split; [exact H1|]. split; [reflexivity|]. split; [exact H2|]. split; [exact H3|].
  split; [exact (proj1 H)|].
  exact (proj1 (proj2 (proj2 (proj2 (proj2 (proj2 (proj2 H))))))).
Defined.

Lemma pixels_position_is_translation_witness :
  (2 <= 2)%nat /\ 1%Z = 1%Z /\ (1 <= 1 < 2)%nat
  /\ slot_pos (E:=Empty_set) 1 0 1 1
     = inl ("pos - __imageSrcRegionOrigins[0] + __imageSrcRegionOrigins["
              ++ fmt_d (Z.of_nat 1) ++ "]")
  /\ emits Empty_set 2 1 0 1 (pixelsAt_func 1 (pixels_pos 1)).
Proof.
  assert (H1 : (2 <= 2)%nat) by lia.
  assert (H3 : (1 <= 1 < 2)%nat) by lia.
  pose proof (pixels_position_is_translation (E:=Empty_set) 2 1 0 1 1 H1 eq_refl H3) as H.
  split; [exact H1|]. split; [reflexivity|]. split; [exact H3|].
  split; [exact (proj1 H)|].
  exact (proj2 (proj2 (proj2 (proj2 (proj2 (proj2 H)))))).
Defined.

Lemma missing_entry_points_witness :
  parse_pixels [] = (1%Z, None)
  /\ compile_no_fragment
       ([] ++ list_byte_of_string (fst (shaderSuffix (E:=unit) 1 1 0 1)))%list
       "__vertex" "Fragment" 1
     = (Some no_fragment, None)
  /\ Block (VertexFunc no_fragment) <> None
  /\ Block (FragmentFunc no_fragment) = None
  /\ snd (CompileShader 1 1 0 parse_pixels compile_no_fragment [])
     = Returns (None, Some (fmtError
         "graphics: fragment shader entry point 'Fragment' is missing")).
Proof.
  assert (Hs : shaderSuffix (E:=unit) 1 1 0 1
               = (fst (shaderSuffix (E:=unit) 1 1 0 1), None))
    by (vm_compute; reflexivity).
  assert (Hv : Block (VertexFunc no_fragment) <> None) by discriminate.
  pose proof (missing_entry_points 1 1 0 parse_pixels compile_no_fragment
                [] 1 _ no_fragment eq_refl Hs eq_refl) as H.
  split; [reflexivity|]. split; [reflexivity|]. split; [exact Hv|]. split; [reflexivity|].
  exact (proj1 (proj2 H) Hv eq_refl).
Defined.

Lemma parse_error_is_returned_witness :
  parse_fails [] = (0%Z, Some (extError tt))
  /\ CompileShader 1 1 0 parse_fails compile_both []
     = ([CallParseCompilerDirectives []], Returns (None, Some (extError tt))).
Proof.
  split; [reflexivity|].
  exact (parse_error_is_returned 1 1 0 parse_fails compile_both [] 0 (extError tt) eq_refl).
Defined.

Lemma unexpected_unit_is_an_error_witness :
  (2 <= 2)%nat /\ 7%Z <> 1%Z /\ 7%Z <> 0%Z
  /\ shaderSuffix (E:=Empty_set) 2 1 0 7
     = (EmptyString, Some (fmtError ("graphics: unexpected unit: " ++ fmt_d 7))).
Proof.
  assert (H1 : (2 <= 2)%nat) by lia.
  assert (H2 : 7%Z <> 1%Z) by discriminate.
  assert (H3 : 7%Z <> 0%Z) by discriminate.
  split; [exact H1|]. split; [exact H2|]. split; [exact H3|].
  exact (proj1 (unexpected_unit_is_an_error (E:=Empty_set) 2 1 0 7 H1 H2 H3)).
Defined.

Lemma suffix_text_is_determined_witness :
  (1 <= 2)%nat /\ mode_of 1 0 1 = Some PixelsMode
  /\ exists text,
       shaderSuffix (E:=Empty_set) 2 1 0 1 = (text, None)
       /\ forall r1 r2,
            shaderSuffix_returns (E:=Empty_set) 2 1 0 1 r1 ->
            shaderSuffix_returns (E:=Empty_set) 2 1 0 1 r2 -> r1 = r2.
Proof.
  assert (H1 : (1 <= 2)%nat) by lia.
  split; [exact H1|]. split; [reflexivity|].
  destruct (suffix_text_is_determined (E:=Empty_set) 2 1 0 1 PixelsMode H1 eq_refl)
    as (text & Hs & _ & Hd & _).
  exists text. split; [exact Hs | exact Hd].
Defined.


Lemma compiles_source_then_suffix_witness :
  parse_pixels [] = (1%Z, None)
  /\ fst (CompileShader 1 1 0 parse_pixels compile_both [])
     = [CallParseCompilerDirectives [];
        CallShaderSuffix 1;
        CallCompile ([] ++ list_byte_of_string (fst (shaderSuffix (E:=unit) 1 1 0 1)))%list
          "__vertex" "Fragment" 1]
  /\ snd (CompileShader 1 1 0 parse_pixels compile_both [])
     = Returns (Some with_both_blocks, None).
Proof.
  assert (Hs : shaderSuffix (E:=unit) 1 1 0 1
               = (fst (shaderSuffix (E:=unit) 1 1 0 1), None))
    by (vm_compute; reflexivity).
  pose proof (compiles_source_then_suffix 1 1 0 parse_pixels compile_both
                [] 1 _ eq_refl Hs) as H.
  split; [reflexivity|]. split; [exact (proj1 H)|].
  exact (proj1 (proj2 H) with_both_blocks tt tt eq_refl eq_refl eq_refl).
Defined.

Lemma first_image_uses_raw_position_witness :
  mode_of 1 0 1 = Some PixelsMode /\ (1 <= 1)%nat
  /\ slot_pos (E:=Empty_set) 1 0 1 0 = inl "pos"
  /\ emits Empty_set 1 1 0 1 (unsafeAt_func 0 EPos).
Proof.
  assert (H1 : (1 <= 1)%nat) by lia.
  pose proof (first_image_uses_raw_position (E:=Empty_set) 1 1 0 1 PixelsMode eq_refl H1)
    as H.
  split; [reflexivity|]. split; [exact H1|].
  split; [exact (proj1 H) | exact (proj1 (proj2 (proj2 H)))].
Defined.

Lemma single_image_accepts_any_unit_witness :
  7%Z <> 1%Z /\ 7%Z <> 0%Z
  /\ exists text,
       shaderSuffix (E:=Empty_set) 1 1 0 7 = (text, None)
       /\ occurs_in "imageSrc0At(" text = false.
Proof.
  assert (H2 : 7%Z <> 1%Z) by discriminate.
  assert (H3 : 7%Z <> 0%Z) by discriminate.
  split; [exact H2|]. split; [exact H3|].
  destruct (proj2 (proj2 (single_image_accepts_any_unit (E:=Empty_set) 1 0 7)) H2 H3)
    as (text & Hs & _ & _ & Hno).
  exists text. split; [exact Hs | exact Hno].
Defined.


(** What the texel template takes for granted is needed: for [Texels] and two
    images whose regions differ in size, at the position (1, 1), which lies in
    the region of image 1 (before and after the conversion to its texture),
    [imageSrc1At] returns zero and not the sample of [imageSrc1UnsafeAt]. *)
Lemma texels_check_ignores_own_region :
  mode_of 1 0 0 = Some TexelsMode
  /\ emits Empty_set 2 1 0 0 (imageSrcAt TexelsMode 1)
  /\ sizes_nonnegative two_images 0 /\ sizes_nonnegative two_images 1
  /\ inside (RegionOrigins two_images 1) (RegionSizes two_images 1) (Vec2 1 1) = true
  /\ inside (RegionOrigins two_images 1) (RegionSizes two_images 1)
       (pos_value TexelsMode 1 two_images (Vec2 1 1)) = true
  /\ call_func two_images (imageSrcUnsafeAt TexelsMode 1) (Vec2 1 1)
     = Some (VVec4 (Vec4 1 1 1 1))
  /\ call_func two_images (imageSrcAt TexelsMode 1) (Vec2 1 1)
     = Some (VVec4 (Vec4 0 0 0 0))
  /\ ~ (exists sample r,
          call_func two_images (imageSrcUnsafeAt TexelsMode 1) (Vec2 1 1)
          = Some (VVec4 sample)
          /\ call_func two_images (imageSrcAt TexelsMode 1) (Vec2 1 1) = Some (VVec4 r)
          /\ vec4_eq r
               (if inside (RegionOrigins two_images 1) (RegionSizes two_images 1)
                     (Vec2 1 1)
                then sample else vec4_of 0)).
Proof.
  split; [reflexivity|].
  split; [apply (emits_slot (E:=Empty_set) 2 1 0 0 TexelsMode 1 eq_refl); lia|].
  split; [split; discriminate|]. split; [split; discriminate|].
  split; [reflexivity|]. split; [reflexivity|].
  split; [reflexivity|]. split; [reflexivity|].
  intros (sample & r & Hu & Ha & Heq).
  vm_compute in Hu. vm_compute in Ha.
  injection Hu as <-. injection Ha as <-.
  destruct Heq as [Hr _]. vm_compute in Hr. discriminate Hr.
Qed.

(** * Further properties of [shaderSuffix] *)

Section SuffixProperties.

Context {E : Type}.
Variable N : nat.
Variables Pixels Texels : Z.

Lemma slots_zero_or_one (unit : Z) (n : nat) (acc : string) :
  (n <= 1)%nat ->
  snd (slots (E:=E) Pixels Texels unit n 0 acc) = None
  /\ fst (slots (E:=E) Pixels Texels unit n 0 acc) <> EmptyString.
Proof.
  intros Hn.
  rewrite (slots_closed_form Pixels Texels unit (fun _ => "pos") n 0 acc).
  - split; [reflexivity|]. cbn [fst].
    destruct acc as [|c acc]; [|discriminate].
    rewrite string_app_nil_l.
    destruct n as [|n].
    + cbn [slot_texts]. rewrite string_app_nil_l. discriminate.
    + cbn [slot_texts]. unfold slot_text. rewrite !string_app_assoc.
      generalize (Z.of_nat 0). intros z. cbv -[append fmt_d slot_texts append_at].
      discriminate.
  - intros j Hj. assert (j = 0%nat) as -> by lia. reflexivity.
Qed.

Lemma slots_success_text (unit : Z) (n i : nat) (acc text : string) :
  slots (E:=E) Pixels Texels unit n i acc = (text, None) ->
  exists body, text = acc ++ body ++ vertex_text.
Proof.
  revert i acc text. induction n as [|n IH]; intros i acc text Hs.
  - cbn [slots] in Hs. injection Hs as <-. exists EmptyString. reflexivity.
  - cbn [slots] in Hs.
    destruct (slot_pos Pixels Texels unit i) as [pos|err]; [|discriminate].
    apply IH in Hs. destruct Hs as (body & ->).
    exists (Sprintf accessors_format [ArgInt (Z.of_nat i)]
              ++ Sprintf unsafeAt_format [ArgInt (Z.of_nat i); ArgStr pos]
              ++ append_at Pixels Texels unit i pos EmptyString ++ body).
    now rewrite append_at_app, !string_app_assoc.
Qed.

(** X1: [shaderSuffix] returns an error exactly when there are at least two
    images and the unit is neither [Pixels] nor [Texels]; the error then is the
    unexpected-unit error with the empty text, and a text returned without
    error is never empty. *)
Theorem shaderSuffix_error_iff (unit : Z) :
  (snd (shaderSuffix (E:=E) N Pixels Texels unit) <> None
   <-> (2 <= N)%nat /\ unit <> Pixels /\ unit <> Texels)
  /\ (snd (shaderSuffix (E:=E) N Pixels Texels unit) <> None ->
      shaderSuffix (E:=E) N Pixels Texels unit
      = (EmptyString, Some (fmtError ("graphics: unexpected unit: " ++ fmt_d unit))))
  /\ (snd (shaderSuffix (E:=E) N Pixels Texels unit) = None ->
      fst (shaderSuffix (E:=E) N Pixels Texels unit) <> EmptyString).
Proof.
  assert (Hcases : (snd (shaderSuffix (E:=E) N Pixels Texels unit) = None
                    /\ fst (shaderSuffix (E:=E) N Pixels Texels unit) <> EmptyString
                    /\ ~ ((2 <= N)%nat /\ unit <> Pixels /\ unit <> Texels))
                   \/ (shaderSuffix (E:=E) N Pixels Texels unit
                       = (EmptyString,
                          Some (fmtError ("graphics: unexpected unit: " ++ fmt_d unit)))
                       /\ (2 <= N)%nat /\ unit <> Pixels /\ unit <> Texels)).
  { destruct (mode_of Pixels Texels unit) as [m|] eqn:Hm.
    - left. rewrite (shaderSuffix_mode N Pixels Texels unit m Hm). cbn [fst snd].
      split; [reflexivity|]. split.
      + generalize (Z.of_nat N). intros z. cbv -[append fmt_d slot_texts]. discriminate.
      + intros (_ & HP & HT).
        assert (mode_of Pixels Texels unit = None) by (apply mode_of_none; tauto).
        congruence.
    - destruct (le_lt_dec 2 N) as [HN|HN].
      + right. apply mode_of_none in Hm as HPT. split; [|tauto].
        unfold shaderSuffix. destruct N as [|[|n]]; try lia.
        now apply slots_unexpected.
      + left. unfold shaderSuffix.
        destruct (slots_zero_or_one unit N
                    (Sprintf header_format [ArgInt (Z.of_nat N)])) as [H1 H2]; [lia|].
        split; [exact H1|]. split; [exact H2|]. lia. }
  destruct Hcases as [(Hn & Ht & Hno)|(Hs & Hyes)].
  - split; [|split].
    + split; [congruence | tauto].
    + congruence.
    + intros _. exact Ht.
  - split; [|split].
    + rewrite Hs. cbn [snd]. split; [tauto | discriminate].
    + intros _. exact Hs.
    + rewrite Hs. cbn [snd]. discriminate.
Qed.

Lemma slot_texts_concat (unit : Z) (m : mode) (n i : nat) :
  mode_of Pixels Texels unit = Some m ->
  slot_texts Pixels Texels unit (fun k => print_expr (pos_expr m k)) n i
  = concat_texts (map (slot_code m) (seq i n)).
Proof.
  intros Hm. revert i. induction n as [|n IH]; intros i; [reflexivity|].
  cbn [slot_texts seq map concat_texts].
  now rewrite IH, (slot_text_mode Pixels Texels unit m i Hm).
Qed.

(** X2: for a unit the switches know, the returned text is the header for
    [N] images, then for each image 0, 1, ..., N-1 in this order its two
    accessors, its unsafe fetch and its bounds-checked fetch, then the vertex
    entry point, and nothing else. *)
Theorem suffix_closed_form (unit : Z) (m : mode) :
  mode_of Pixels Texels unit = Some m ->
  shaderSuffix (E:=E) N Pixels Texels unit
  = (Sprintf header_format [ArgInt (Z.of_nat N)]
       ++ concat_texts (map (slot_code m) (seq 0 N))
       ++ vertex_text, None).
Proof.
  intros Hm.
  rewrite (shaderSuffix_mode N Pixels Texels unit m Hm).
  now rewrite (slot_texts_concat unit m N 0 Hm).
Qed.

Lemma header_declares_arrays (z : Z) :
  exists a b c d : string,
    Sprintf header_format [ArgInt z]
    = a ++ ("var __imageSrcTextureSizes [" ++ fmt_d z ++ "]vec2")
        ++ b ++ ("var __imageSrcRegionOrigins [" ++ fmt_d z ++ "]vec2")
        ++ c ++ ("var __imageSrcRegionSizes [" ++ fmt_d z ++ "]vec2")
        ++ d.
Proof.
  exists (substring 0 179 header_format), (substring 217 1491 header_format),
         (substring 1747 54 header_format), (substring 1838 461 header_format).
  cbv -[append fmt_d].
  repeat rewrite string_app_assoc; cbn [append];
  repeat rewrite string_app_assoc; cbn [append]; reflexivity.
Qed.

Lemma fetch_reads (m : mode) (i : nat) (a : uniform) (k : nat) :
  In (a, k) (func_reads (imageSrcUnsafeAt m i) ++ func_reads (imageSrcAt m i)) ->
  k = 0%nat \/ k = i.
Proof.
  intros H. apply in_app_or in H.
  destruct i as [|i], m; cbn in H;
    repeat match goal with
           | H : _ \/ _ |- _ => destruct H as [H|H]
           | H : (_, _) = (_, _) |- _ => injection H as _ <-
           | H : False |- _ => destruct H
           end; auto.
Qed.

Lemma fetch_textures (m : mode) (i k : nat) :
  In k (func_textures (imageSrcUnsafeAt m i) ++ func_textures (imageSrcAt m i)) ->
  k = i.
Proof.
  intros H. apply in_app_or in H.
  destruct i as [|i], m; cbn in H;
    repeat match goal with
           | H : _ \/ _ |- _ => destruct H as [H|H]
           | H : False |- _ => destruct H
           end; auto.
Qed.

(** X3: the header declares the three uniform arrays with [N] elements, and
    for a unit the switches know the two fetch functions the text holds for an
    image [i < N] index those arrays below [N] only (at 0 or at [i]) and name
    no texture variable but [__t<i>]. *)
Theorem fetch_functions_stay_in_bounds (unit : Z) (m : mode) (i : nat) :
  mode_of Pixels Texels unit = Some m -> (i < N)%nat ->
  (exists a b c d : string,
     Sprintf header_format [ArgInt (Z.of_nat N)]
     = a ++ ("var __imageSrcTextureSizes [" ++ fmt_d (Z.of_nat N) ++ "]vec2")
         ++ b ++ ("var __imageSrcRegionOrigins [" ++ fmt_d (Z.of_nat N) ++ "]vec2")
         ++ c ++ ("var __imageSrcRegionSizes [" ++ fmt_d (Z.of_nat N) ++ "]vec2")
         ++ d)
  /\ emits E N Pixels Texels unit (imageSrcUnsafeAt m i)
  /\ emits E N Pixels Texels unit (imageSrcAt m i)
  /\ (forall a k,
        In (a, k) (func_reads (imageSrcUnsafeAt m i) ++ func_reads (imageSrcAt m i)) ->
        (k = 0%nat \/ k = i) /\ (k < N)%nat)
  /\ (forall k,
        In k (func_textures (imageSrcUnsafeAt m i) ++ func_textures (imageSrcAt m i)) ->
        k = i).
Proof.
  intros Hm Hi.
  destruct (emits_slot (E:=E) N Pixels Texels unit m i Hm Hi) as [Hu Ha].
  split; [apply header_declares_arrays|].
  split; [exact Hu|]. split; [exact Ha|]. split.
  - intros a k Hin. split; [now apply (fetch_reads m i a)|].
    destruct (fetch_reads m i a k Hin); lia.
  - intros k Hin. now apply (fetch_textures m i).
Qed.

End SuffixProperties.

(** * Further properties of the emitted fetch functions *)

Lemma pos_value_with_textures (m : mode) (i : nat) (u : uniforms)
    (textures : nat -> vec2 -> vec4) (pos : vec2) :
  pos_value m i (with_textures u textures) pos = pos_value m i u pos.
Proof. destruct i, m; reflexivity. Qed.

Lemma region_test_value (u : uniforms) (k : nat) (pos : vec2) (local : option value) :
  eval u pos local (region_test k) = Some (VVec2 (region_mask u k pos)).
Proof. reflexivity. Qed.

Lemma region_mask_components (u : uniforms) (k : nat) (pos : vec2) :
  sizes_nonnegative u k ->
  (vx (region_mask u k pos)
   == if Qle_bool (vx (RegionOrigins u 0)) (vx pos)
         && negb (Qle_bool (vx (RegionOrigins u 0) + vx (RegionSizes u k)) (vx pos))
      then 1 else 0)%Q
  /\ (vy (region_mask u k pos)
      == if Qle_bool (vy (RegionOrigins u 0)) (vy pos)
            && negb (Qle_bool (vy (RegionOrigins u 0) + vy (RegionSizes u k)) (vy pos))
         then 1 else 0)%Q.
Proof.
  intros [Hsx Hsy]. unfold region_mask, vec2_map2. cbn [vx vy].
  split; now apply step_difference.
Qed.

Lemma imageSrcAt_value (m : mode) (i : nat) (u : uniforms) (pos : vec2) :
  sizes_nonnegative u (checked_size m i) ->
  exists r,
    call_func u (imageSrcAt m i) pos = Some (VVec4 r)
    /\ vec4_eq r
         (if inside (RegionOrigins u 0) (RegionSizes u (checked_size m i)) pos
          then Textures u i (pos_value m i u pos) else vec4_of 0).
Proof.
  intros Hs. eexists. split; [apply call_imageSrcAt|].
  destruct (region_mask_components u (checked_size m i) pos Hs) as [Hx Hy].
  pose proof (fun q => masked_component q _ _ _ _ Hx Hy) as Hc.
  unfold vec4_eq, inside, vec4_map2, vec4_of. cbn [vr vg vb va].
  destruct (Qle_bool (vx (RegionOrigins u 0)) (vx pos)
            && negb (Qle_bool (vx (RegionOrigins u 0)
                               + vx (RegionSizes u (checked_size m i))) (vx pos))
            && (Qle_bool (vy (RegionOrigins u 0)) (vy pos)
                && negb (Qle_bool (vy (RegionOrigins u 0)
                                   + vy (RegionSizes u (checked_size m i))) (vy pos))));
    cbn [vr vg vb va]; repeat split; apply Hc.
Qed.

Lemma inside_lower_corner (o s : vec2) :
  (0 < vx s)%Q -> (0 < vy s)%Q -> inside o s o = true.
Proof.
  intros Hx Hy. unfold inside.
  assert (Hle : forall a : Q, Qle_bool a a = true)
    by (intros a; apply Qle_bool_iff; lra).
  assert (Hgt : forall a b : Q, (0 < b)%Q -> Qle_bool (a + b) a = false).
  { intros a b Hb. destruct (Qle_bool (a + b) a) eqn:H; [|reflexivity].
    apply Qle_bool_iff in H. lra. }
  now rewrite !Hle, !Hgt.
Qed.

Lemma inside_upper_edge (o s p : vec2) :
  (vx o + vx s <= vx p)%Q \/ (vy o + vy s <= vy p)%Q -> inside o s p = false.
Proof.
  unfold inside. intros [H|H]; apply Qle_bool_iff in H; rewrite H; cbn [negb];
    now rewrite ?andb_false_r.
Qed.

Lemma step_difference_zero (o s p : Q) :
  (s == 0)%Q -> (step_scalar o p - step_scalar (o + s) p == 0)%Q.
Proof.
  intros Hs. unfold step_scalar.
  rewrite (Qle_bool_ext (o + s) p o p) by (split; intros; lra).
  ring.
Qed.

Section FetchProperties.

Context {E : Type}.
Variable N : nat.
Variables Pixels Texels : Z.

(** X4: the two fetch functions the text holds for an image [i] sample the
    texture [__t<i>] only: binding other textures to the other variables does
    not change their results. *)
Theorem fetch_samples_own_texture (unit : Z) (m : mode) (i : nat) (u : uniforms)
    (textures : nat -> vec2 -> vec4) (pos : vec2) :
  mode_of Pixels Texels unit = Some m -> (i < N)%nat ->
  (forall p, textures i p = Textures u i p) ->
  emits E N Pixels Texels unit (imageSrcUnsafeAt m i)
  /\ emits E N Pixels Texels unit (imageSrcAt m i)
  /\ call_func (with_textures u textures) (imageSrcUnsafeAt m i) pos
     = call_func u (imageSrcUnsafeAt m i) pos
  /\ call_func (with_textures u textures) (imageSrcAt m i) pos
     = call_func u (imageSrcAt m i) pos.
Proof.
  intros Hm Hi Ht.
  destruct (emits_slot (E:=E) N Pixels Texels unit m i Hm Hi) as [Hu Ha].
  split; [exact Hu|]. split; [exact Ha|].
  rewrite !call_imageSrcUnsafeAt, !call_imageSrcAt, !pos_value_with_textures.
  cbn [with_textures Textures]. rewrite Ht. split; reflexivity.
Qed.

(** X5: the unsafe fetch of an image [i] is not masked: it returns the texel
    of texture [i] at the converted position wherever [pos] lies, it reads no
    region size, and changing the region sizes does not change its result. *)
Theorem unsafe_fetch_is_unmasked (unit : Z) (m : mode) (i : nat) (u : uniforms)
    (sizes : nat -> vec2) (pos : vec2) :
  mode_of Pixels Texels unit = Some m -> (i < N)%nat ->
  emits E N Pixels Texels unit (imageSrcUnsafeAt m i)
  /\ call_func u (imageSrcUnsafeAt m i) pos
     = Some (VVec4 (Textures u i (pos_value m i u pos)))
  /\ call_func (with_sizes u sizes) (imageSrcUnsafeAt m i) pos
     = call_func u (imageSrcUnsafeAt m i) pos
  /\ (forall k, ~ In (SrcRegionSizes, k) (func_reads (imageSrcUnsafeAt m i))).
Proof.
  intros Hm Hi.
  destruct (emits_slot (E:=E) N Pixels Texels unit m i Hm Hi) as [Hu _].
  split; [exact Hu|]. split; [apply call_imageSrcUnsafeAt|]. split.
  - rewrite !call_imageSrcUnsafeAt. cbn [with_sizes Textures].
    now destruct i, m.
  - intros k Hin.
    destruct i as [|i], m; cbn in Hin;
      repeat match goal with
             | H : _ \/ _ |- _ => destruct H as [H|H]
             | H : (_, _) = (_, _) |- _ => discriminate H
             | H : False |- _ => destruct H
             end.
Qed.

(** X6: for image 0 the unit makes no difference: the text returned for
    [Pixels] and the text returned for [Texels] hold the same unsafe fetch
    function, and bounds-checked fetch functions that have the same statements
    and the same results. *)
Theorem first_image_same_in_both_modes (u : uniforms) (pos : vec2) :
  (1 <= N)%nat -> Pixels <> Texels ->
  emits E N Pixels Texels Pixels (unsafeAt_func 0 EPos)
  /\ emits E N Pixels Texels Texels (unsafeAt_func 0 EPos)
  /\ emits E N Pixels Texels Pixels (pixelsAt_func 0 EPos)
  /\ emits E N Pixels Texels Texels (texelsAt_func 0 EPos)
  /\ filter (fun s => match s with SComment _ => false | _ => true end)
       (fbody (pixelsAt_func 0 EPos))
     = filter (fun s => match s with SComment _ => false | _ => true end)
         (fbody (texelsAt_func 0 EPos))
  /\ call_func u (pixelsAt_func 0 EPos) pos = call_func u (texelsAt_func 0 EPos) pos.
Proof.
  intros HN Hne.
  assert (Hp : mode_of Pixels Texels Pixels = Some PixelsMode) by now apply mode_of_pixels.
  assert (Ht : mode_of Pixels Texels Texels = Some TexelsMode)
    by (apply mode_of_texels; split; congruence).
  destruct (emits_slot (E:=E) N Pixels Texels Pixels PixelsMode 0 Hp) as [Hpu Hpa]; [lia|].
  destruct (emits_slot (E:=E) N Pixels Texels Texels TexelsMode 0 Ht) as [Htu Hta]; [lia|].
  split; [exact Hpu|]. split; [exact Htu|]. split; [exact Hpa|]. split; [exact Hta|].
  split; reflexivity.
Qed.

(** X7: for [Pixels] the converted position of an image [i] lies at the same
    offset from the origin of image [i] as [pos] lies from the origin of
    image 0. *)
Theorem pixels_position_keeps_offset (unit : Z) (i : nat) (u : uniforms) (pos : vec2)
    (local : option value) :
  mode_of Pixels Texels unit = Some PixelsMode ->
  slot_pos (E:=E) Pixels Texels unit i = inl (print_expr (pos_expr PixelsMode i))
  /\ eval u pos local (pos_expr PixelsMode i)
     = Some (VVec2 (pos_value PixelsMode i u pos))
  /\ (vx (pos_value PixelsMode i u pos) - vx (RegionOrigins u i)
      == vx pos - vx (RegionOrigins u 0))%Q
  /\ (vy (pos_value PixelsMode i u pos) - vy (RegionOrigins u i)
      == vy pos - vy (RegionOrigins u 0))%Q.
Proof.
  intros Hm.
  split; [now apply slot_pos_mode|]. split; [apply eval_pos_expr|].
  destruct i as [|i]; cbn [pos_value]; [split; reflexivity|].
  unfold vec2_add, vec2_sub, vec2_map2. cbn [vx vy]. split; ring.
Qed.

(** X8: for [Texels] the converted position of an image [i] whose texture
    size is not zero lies at the same offset in pixels from the origin of
    image [i] as [pos] lies from the origin of image 0: the offsets in texels
    times the texture sizes agree. *)
Theorem texels_position_keeps_pixel_offset (unit : Z) (i : nat) (u : uniforms)
    (pos : vec2) (local : option value) :
  mode_of Pixels Texels unit = Some TexelsMode ->
  ~ (vx (TextureSizes u i) == 0)%Q -> ~ (vy (TextureSizes u i) == 0)%Q ->
  slot_pos (E:=E) Pixels Texels unit i = inl (print_expr (pos_expr TexelsMode i))
  /\ eval u pos local (pos_expr TexelsMode i)
     = Some (VVec2 (pos_value TexelsMode i u pos))
  /\ ((vx (pos_value TexelsMode i u pos) - vx (RegionOrigins u i)) * vx (TextureSizes u i)
      == (vx pos - vx (RegionOrigins u 0)) * vx (TextureSizes u 0))%Q
  /\ ((vy (pos_value TexelsMode i u pos) - vy (RegionOrigins u i)) * vy (TextureSizes u i)
      == (vy pos - vy (RegionOrigins u 0)) * vy (TextureSizes u 0))%Q.
Proof.
  intros Hm Hx Hy.
  split; [now apply slot_pos_mode|]. split; [apply eval_pos_expr|].
  destruct i as [|i]; cbn [pos_value]; [split; reflexivity|].
  unfold vec2_add, vec2_sub, vec2_mul, vec2_div, vec2_map2. cbn [vx vy].
  split; field; assumption.
Qed.

(** X9: the local [in] of a bounds-checked fetch is what its comment says, for
    region sizes that are not negative: (1, 1) when [pos] is in the region,
    and a vector with a zero component otherwise. *)
Theorem region_test_is_as_commented (unit : Z) (m : mode) (i : nat) (u : uniforms)
    (pos : vec2) (local : option value) :
  mode_of Pixels Texels unit = Some m -> (i < N)%nat ->
  sizes_nonnegative u (checked_size m i) ->
  emits E N Pixels Texels unit (imageSrcAt m i)
  /\ In (SComment "If pos is in the region, the result is (1, 1). Otherwise, either element is 0.")
     (fbody (imageSrcAt m i))
  /\ In (SDefineIn (region_test (checked_size m i))) (fbody (imageSrcAt m i))
  /\ eval u pos local (region_test (checked_size m i))
     = Some (VVec2 (region_mask u (checked_size m i) pos))
  /\ (inside (RegionOrigins u 0) (RegionSizes u (checked_size m i)) pos = true ->
      (vx (region_mask u (checked_size m i) pos) == 1
       /\ vy (region_mask u (checked_size m i) pos) == 1)%Q)
  /\ (inside (RegionOrigins u 0) (RegionSizes u (checked_size m i)) pos = false ->
      (vx (region_mask u (checked_size m i) pos) == 0
       \/ vy (region_mask u (checked_size m i) pos) == 0)%Q).
Proof.
  intros Hm Hi Hs.
  split; [apply (emits_slot (E:=E) N Pixels Texels unit m i Hm Hi)|].
  split; [destruct m; cbn; tauto|]. split; [destruct m; cbn; tauto|].
  split; [apply region_test_value|].
  destruct (region_mask_components u (checked_size m i) pos Hs) as [Hx Hy].
  unfold inside. rewrite Hx, Hy.
  destruct (Qle_bool (vx (RegionOrigins u 0)) (vx pos)
            && negb (Qle_bool (vx (RegionOrigins u 0)
                               + vx (RegionSizes u (checked_size m i))) (vx pos)));
    destruct (Qle_bool (vy (RegionOrigins u 0)) (vy pos)
              && negb (Qle_bool (vy (RegionOrigins u 0)
                                 + vy (RegionSizes u (checked_size m i))) (vy pos)));
    cbn [andb]; split; intros H; try discriminate H;
    try (split; reflexivity); try (left; reflexivity); try (right; reflexivity).
Qed.

(** X10: the region of the bounds check is half open: for a region of
    positive size, the fetch at the region's origin returns the sample, and
    the fetch at a position on or beyond the far edge in either direction
    returns zero. *)
Theorem bounds_check_is_half_open (unit : Z) (m : mode) (i : nat) (u : uniforms)
    (pos : vec2) :
  mode_of Pixels Texels unit = Some m -> (i < N)%nat ->
  (0 < vx (RegionSizes u (checked_size m i)))%Q ->
  (0 < vy (RegionSizes u (checked_size m i)))%Q ->
  emits E N Pixels Texels unit (imageSrcAt m i)
  /\ (exists r,
     call_func u (imageSrcAt m i) (RegionOrigins u 0) = Some (VVec4 r)
     /\ vec4_eq r (Textures u i (pos_value m i u (RegionOrigins u 0))))
  /\ ((vx (RegionOrigins u 0) + vx (RegionSizes u (checked_size m i)) <= vx pos
       \/ vy (RegionOrigins u 0) + vy (RegionSizes u (checked_size m i)) <= vy pos)%Q ->
      exists r,
        call_func u (imageSrcAt m i) pos = Some (VVec4 r) /\ vec4_eq r (vec4_of 0)).
Proof.
  intros Hm Hi Hx Hy.
  assert (Hs : sizes_nonnegative u (checked_size m i)) by (split; lra).
  split; [apply (emits_slot (E:=E) N Pixels Texels unit m i Hm Hi)|].
  split.
  - destruct (imageSrcAt_value m i u (RegionOrigins u 0) Hs) as (r & Hr & Heq).
    rewrite (inside_lower_corner _ _ Hx Hy) in Heq. now exists r.
  - intros Hedge.
    destruct (imageSrcAt_value m i u pos Hs) as (r & Hr & Heq).
    rewrite (inside_upper_edge _ _ _ Hedge) in Heq. now exists r.
Qed.

(** X11: a region whose width or height is zero is empty: the bounds-checked
    fetch returns zero at every position. *)
Theorem empty_region_masks_every_sample (unit : Z) (m : mode) (i : nat) (u : uniforms)
    (pos : vec2) :
  mode_of Pixels Texels unit = Some m -> (i < N)%nat ->
  (vx (RegionSizes u (checked_size m i)) == 0
   \/ vy (RegionSizes u (checked_size m i)) == 0)%Q ->
  emits E N Pixels Texels unit (imageSrcAt m i)
  /\ exists r,
       call_func u (imageSrcAt m i) pos = Some (VVec4 r) /\ vec4_eq r (vec4_of 0).
Proof.
  intros Hm Hi Hz.
  split; [apply (emits_slot (E:=E) N Pixels Texels unit m i Hm Hi)|].
  eexists. split; [apply call_imageSrcAt|].
  unfold vec4_eq, vec4_map2, vec4_of, region_mask, vec2_map2. cbn [vx vy vr vg vb va].
  destruct Hz as [Hz|Hz].
  - rewrite (step_difference_zero _ _ (vx pos) Hz). repeat split; ring.
  - rewrite (step_difference_zero _ _ (vy pos) Hz). repeat split; ring.
Qed.

End FetchProperties.

(** * Further properties of [CompileShader] *)

Lemma list_byte_of_string_app (a b : string) :
  list_byte_of_string (a ++ b) = (list_byte_of_string a ++ list_byte_of_string b)%list.
Proof.
  unfold list_byte_of_string.
  induction a as [|c a IH]; [reflexivity|].
  cbn [append list_ascii_of_string map app]. now rewrite IH.
Qed.

Section CompileProperties.

Context {E B X : Type}.
Variable N : nat.
Variables Pixels Texels : Z.
Variable ParseCompilerDirectives : list byte -> Z * option (error E).
Variable Compile :
  list byte -> string -> string -> nat -> option (Program B X) * option (error E).

(** X12: whatever the parser and the compiler do, what [CompileShader]
    returns is either no program with an error, or the compiler's program with
    both blocks and no error; it never returns a program together with an
    error, nor nothing at all. *)
Theorem CompileShader_returns_program_or_error (src : list byte)
    (ir : option (Program B X)) (err : option (error E)) :
  snd (CompileShader N Pixels Texels ParseCompilerDirectives Compile src)
  = Returns (ir, err) ->
  (ir = None /\ err <> None)
  \/ (exists p unit suffix,
        ir = Some p /\ err = None
        /\ Block (VertexFunc p) <> None /\ Block (FragmentFunc p) <> None
        /\ ParseCompilerDirectives src = (unit, None)
        /\ shaderSuffix (E:=E) N Pixels Texels unit = (suffix, None)
        /\ Compile (src ++ list_byte_of_string suffix)%list "__vertex" "Fragment" N
           = (Some p, None)).
Proof.
  unfold CompileShader.
  destruct (ParseCompilerDirectives src) as [unit [e|]] eqn:Hparse.
  { cbn [snd]. intros H. injection H as <- <-. left. split; [reflexivity|discriminate]. }
  destruct (shaderSuffix N Pixels Texels unit) as [suffix [e|]] eqn:Hsuffix.
  { cbn [snd]. intros H. injection H as <- <-. left. split; [reflexivity|discriminate]. }
  fold vert frag.
  destruct (Compile (src ++ list_byte_of_string suffix)%list vert frag N)
    as [[p|] [e|]] eqn:Hcompile; cbn [snd];
    try (intros H; injection H as <- <-; left; split; [reflexivity|discriminate]);
    try discriminate.
  destruct (Block (VertexFunc p)) eqn:Hv;
    [|intros H; injection H as <- <-; left; split; [reflexivity|discriminate]].
  destruct (Block (FragmentFunc p)) eqn:Hf;
    [|intros H; injection H as <- <-; left; split; [reflexivity|discriminate]].
  intros H. injection H as <- <-. right. exists p, unit, suffix.
  repeat (split; [first [reflexivity | discriminate | congruence]|]).
  exact Hcompile.
Qed.

(** X13: [CompileShader] panics exactly when the directives parse, the suffix
    is built, and the compiler returns a nil program with a nil error. *)
Theorem CompileShader_panics_iff (src : list byte) :
  snd (CompileShader N Pixels Texels ParseCompilerDirectives Compile src) = Panics
  <-> exists unit suffix,
        ParseCompilerDirectives src = (unit, None)
        /\ shaderSuffix (E:=E) N Pixels Texels unit = (suffix, None)
        /\ Compile (src ++ list_byte_of_string suffix)%list "__vertex" "Fragment" N
           = (None, None).
Proof.
  unfold CompileShader. split.
  - destruct (ParseCompilerDirectives src) as [unit [e|]] eqn:Hparse; [discriminate|].
    destruct (shaderSuffix N Pixels Texels unit) as [suffix [e|]] eqn:Hsuffix;
      [discriminate|].
    fold vert frag.
    destruct (Compile (src ++ list_byte_of_string suffix)%list vert frag N)
      as [[p|] [e|]] eqn:Hcompile; cbn [snd]; try discriminate.
    + destruct (Block (VertexFunc p)); [|discriminate].
      destruct (Block (FragmentFunc p)); discriminate.
    + intros _. exists unit, suffix.
      split; [first [exact Hparse | reflexivity]|].
      split; [first [exact Hsuffix | reflexivity]|]. exact Hcompile.
  - intros (unit & suffix & Hparse & Hsuffix & Hcompile).
    rewrite Hparse, Hsuffix. fold vert frag.
    change "__vertex" with vert in Hcompile. change "Fragment" with frag in Hcompile.
    now rewrite Hcompile.
Qed.

Lemma CompileShader_log (src : list byte) :
  fst (CompileShader N Pixels Texels ParseCompilerDirectives Compile src)
  = match ParseCompilerDirectives src with
    | (_, Some _) => [CallParseCompilerDirectives src]
    | (unit, None) =>
        match shaderSuffix (E:=E) N Pixels Texels unit with
        | (_, Some _) => [CallParseCompilerDirectives src; CallShaderSuffix unit]
        | (suffix, None) =>
            [CallParseCompilerDirectives src; CallShaderSuffix unit;
             CallCompile (src ++ list_byte_of_string suffix)%list "__vertex" "Fragment" N]
        end
    end.
Proof.
  unfold CompileShader.
  destruct (ParseCompilerDirectives src) as [unit [e|]]; [reflexivity|].
  destruct (shaderSuffix N Pixels Texels unit) as [suffix [e|]]; [reflexivity|].
  destruct (Compile (src ++ list_byte_of_string suffix)%list vert frag N) as [[p|] [e|]];
    try reflexivity.
  destruct (Block (VertexFunc p)); [|reflexivity].
  destruct (Block (FragmentFunc p)); reflexivity.
Qed.

(** X14: the calls of [CompileShader] are always an initial part of: parse the
    source, build the suffix for the parsed unit, compile the source followed
    by the suffix.  The compiler is called exactly when the parser and
    [shaderSuffix] return no error, and then once. *)
Theorem CompileShader_calls_in_order (src : list byte) :
  (exists rest,
     [CallParseCompilerDirectives src;
      CallShaderSuffix (fst (ParseCompilerDirectives src));
      CallCompile
        (src ++ list_byte_of_string
                  (fst (shaderSuffix (E:=E) N Pixels Texels
                          (fst (ParseCompilerDirectives src)))))%list
        "__vertex" "Fragment" N]
     = (fst (CompileShader N Pixels Texels ParseCompilerDirectives Compile src)
          ++ rest)%list)
  /\ ((exists buf v f n,
         In (CallCompile buf v f n)
            (fst (CompileShader N Pixels Texels ParseCompilerDirectives Compile src)))
      <-> snd (ParseCompilerDirectives src) = None
          /\ snd (shaderSuffix (E:=E) N Pixels Texels (fst (ParseCompilerDirectives src)))
             = None).
Proof.
  rewrite CompileShader_log.
  destruct (ParseCompilerDirectives src) as [unit [e|]]; cbn [fst snd].
  { split.
    - eexists. reflexivity.
    - split.
      + intros (buf & v & f & n & [H|[]]). discriminate H.
      + intros [H _]. discriminate H. }
  destruct (shaderSuffix N Pixels Texels unit) as [suffix [e|]]; cbn [fst snd].
  { split.
    - eexists. reflexivity.
    - split.
      + intros (buf & v & f & n & [H|[H|[]]]); discriminate H.
      + intros [_ H]. discriminate H. }
  split.
  - exists []. reflexivity.
  - split; [tauto|]. intros _.
    exists (src ++ list_byte_of_string suffix)%list, "__vertex", "Fragment", N.
    cbn [In]. tauto.
Qed.

(** X15: when the directives parse to a unit that is neither [Pixels] nor
    [Texels] and there are at least two images, [CompileShader] returns no
    program and the unexpected-unit error of [shaderSuffix], and does not call
    the compiler. *)
Theorem suffix_error_is_returned (src : list byte) (unit : Z) :
  (2 <= N)%nat -> ParseCompilerDirectives src = (unit, None) ->
  unit <> Pixels -> unit <> Texels ->
  CompileShader N Pixels Texels ParseCompilerDirectives Compile src
  = ([CallParseCompilerDirectives src; CallShaderSuffix unit],
     Returns (None, Some (fmtError ("graphics: unexpected unit: " ++ fmt_d unit)))).
Proof.
  intros HN Hparse HP HT. unfold CompileShader. rewrite Hparse.
  assert (Hs : shaderSuffix (E:=E) N Pixels Texels unit
               = (EmptyString, Some (fmtError ("graphics: unexpected unit: " ++ fmt_d unit)))).
  { unfold shaderSuffix. destruct N as [|[|n]]; try lia.
    apply slots_unexpected. apply mode_of_none. tauto. }
  rewrite Hs. reflexivity.
Qed.

(** X16: whenever [CompileShader] calls the compiler, it asks for the entry
    points [__vertex] and [Fragment] and the image count, and the bytes it
    passes are the user source unchanged, then the header for [N] images, then
    the text of the images, and last the text that defines [__vertex]. *)
Theorem compiled_buffer_frames_source (src buf : list byte) (v f : string) (n : nat) :
  In (CallCompile buf v f n)
     (fst (CompileShader N Pixels Texels ParseCompilerDirectives Compile src)) ->
  v = "__vertex" /\ f = "Fragment" /\ n = N
  /\ (exists body,
        buf = (src
               ++ list_byte_of_string (Sprintf header_format [ArgInt (Z.of_nat N)])
               ++ list_byte_of_string body
               ++ list_byte_of_string vertex_text)%list)
  /\ occurs_in ("func " ++ v ++ "(") vertex_text = true.
Proof.
  rewrite CompileShader_log.
  destruct (ParseCompilerDirectives src) as [unit [e|]].
  { intros [H|[]]. discriminate H. }
  destruct (shaderSuffix (E:=E) N Pixels Texels unit) as [suffix [e|]] eqn:Hsuffix.
  { intros [H|[H|[]]]; discriminate H. }
  intros [H|[H|[H|[]]]]; try discriminate H.
  injection H as <- <- <- <-.
  split; [reflexivity|]. split; [reflexivity|]. split; [reflexivity|].
  split; [|vm_compute; reflexivity].
  unfold shaderSuffix in Hsuffix. apply slots_success_text in Hsuffix.
  destruct Hsuffix as (body & ->). exists body.
  now rewrite !list_byte_of_string_app.
Qed.

End CompileProperties.

(** * The further properties at concrete inputs *)

Lemma suffix_closed_form_witness :
  mode_of 1 0 1 = Some PixelsMode
  /\ shaderSuffix (E:=Empty_set) 2 1 0 1
     = (Sprintf header_format [ArgInt 2]
          ++ concat_texts [slot_code PixelsMode 0; slot_code PixelsMode 1]
          ++ vertex_text, None).
Proof.
  split; [reflexivity|].
  exact (suffix_closed_form (E:=Empty_set) 2 1 0 1 PixelsMode eq_refl).
Defined.

Lemma fetch_functions_stay_in_bounds_witness :
  mode_of 1 0 0 = Some TexelsMode /\ (1 < 2)%nat
  /\ forall a k,
       In (a, k) (func_reads (imageSrcUnsafeAt TexelsMode 1)
                    ++ func_reads (imageSrcAt TexelsMode 1)) ->
       (k = 0%nat \/ k = 1%nat) /\ (k < 2)%nat.
Proof.
  assert (H1 : (1 < 2)%nat) by lia.
  split; [reflexivity|]. split; [exact H1|].
  exact (proj1 (proj2 (proj2 (proj2
           (fetch_functions_stay_in_bounds (E:=Empty_set) 2 1 0 0 TexelsMode 1 eq_refl H1))))).
Defined.

Lemma fetch_samples_own_texture_witness :
  mode_of 1 0 1 = Some PixelsMode /\ (1 < 2)%nat
  /\ (forall p, (fun k _ => match k with 1%nat => Vec4 1 1 1 1 | _ => Vec4 0 0 0 0 end) 1%nat p
                = Textures two_images 1 p)
  /\ call_func
       (with_textures two_images
          (fun k _ => match k with 1%nat => Vec4 1 1 1 1 | _ => Vec4 0 0 0 0 end))
       (imageSrcAt PixelsMode 1) (Vec2 1 1)
     = call_func two_images (imageSrcAt PixelsMode 1) (Vec2 1 1).
Proof.
  assert (H1 : (1 < 2)%nat) by lia.
  assert (H2 : forall p : vec2,
             (fun k (_ : vec2) => match k with 1%nat => Vec4 1 1 1 1 | _ => Vec4 0 0 0 0 end)
               1%nat p = Textures two_images 1 p) by (intros p; reflexivity).
  split; [reflexivity|]. split; [exact H1|]. split; [exact H2|].
  exact (proj2 (proj2 (proj2
           (fetch_samples_own_texture (E:=Empty_set) 2 1 0 1 PixelsMode 1 two_images _
              (Vec2 1 1) eq_refl H1 H2)))).
Defined.

Lemma unsafe_fetch_is_unmasked_witness :
  mode_of 1 0 0 = Some TexelsMode /\ (1 < 2)%nat
  /\ call_func (with_sizes two_images (fun _ => Vec2 9 9)) (imageSrcUnsafeAt TexelsMode 1)
       (Vec2 5 5)
     = call_func two_images (imageSrcUnsafeAt TexelsMode 1) (Vec2 5 5).
Proof.
  assert (H1 : (1 < 2)%nat) by lia.
  split; [reflexivity|]. split; [exact H1|].
  exact (proj1 (proj2 (proj2
           (unsafe_fetch_is_unmasked (E:=Empty_set) 2 1 0 0 TexelsMode 1 two_images
              (fun _ => Vec2 9 9) (Vec2 5 5) eq_refl H1)))).
Defined.

Lemma first_image_same_in_both_modes_witness :
  (1 <= 1)%nat /\ 1%Z <> 0%Z
  /\ emits Empty_set 1 1 0 1 (unsafeAt_func 0 EPos)
  /\ emits Empty_set 1 1 0 0 (unsafeAt_func 0 EPos).
Proof.
  assert (H1 : (1 <= 1)%nat) by lia.
  assert (H2 : 1%Z <> 0%Z) by discriminate.
  pose proof (first_image_same_in_both_modes (E:=Empty_set) 1 1 0 one_box (Vec2 2 2) H1 H2)
    as H.
  split; [exact H1|]. split; [exact H2|].
  split; [exact (proj1 H) | exact (proj1 (proj2 H))].
Defined.

Lemma pixels_position_keeps_offset_witness :
  mode_of 1 0 1 = Some PixelsMode
  /\ (vx (pos_value PixelsMode 1 one_box (Vec2 2 2)) - vx (RegionOrigins one_box 1)
      == vx (Vec2 2 2) - vx (RegionOrigins one_box 0))%Q.
Proof.
  split; [reflexivity|].
  exact (proj1 (proj2 (proj2
           (pixels_position_keeps_offset (E:=Empty_set) 1 0 1 1 one_box (Vec2 2 2) None
              eq_refl)))).
Defined.

Lemma texels_position_keeps_pixel_offset_witness :
  mode_of 1 0 0 = Some TexelsMode
  /\ ~ (vx (TextureSizes one_box 1) == 0)%Q /\ ~ (vy (TextureSizes one_box 1) == 0)%Q
  /\ ((vx (pos_value TexelsMode 1 one_box (Vec2 2 2)) - vx (RegionOrigins one_box 1))
        * vx (TextureSizes one_box 1)
      == (vx (Vec2 2 2) - vx (RegionOrigins one_box 0)) * vx (TextureSizes one_box 0))%Q.
Proof.
  assert (Hx : ~ (vx (TextureSizes one_box 1) == 0)%Q) by (intros H; discriminate H).
  assert (Hy : ~ (vy (TextureSizes one_box 1) == 0)%Q) by (intros H; discriminate H).
  split; [reflexivity|]. split; [exact Hx|]. split; [exact Hy|].
  exact (proj1 (proj2 (proj2
           (texels_position_keeps_pixel_offset (E:=Empty_set) 1 0 0 1 one_box (Vec2 2 2) None
              eq_refl Hx Hy)))).
Defined.

Lemma region_test_is_as_commented_witness :
  mode_of 1 0 0 = Some TexelsMode /\ (1 < 2)%nat
  /\ sizes_nonnegative one_box (checked_size TexelsMode 1)
  /\ (inside (RegionOrigins one_box 0) (RegionSizes one_box (checked_size TexelsMode 1))
        (Vec2 2 2) = true ->
      (vx (region_mask one_box (checked_size TexelsMode 1) (Vec2 2 2)) == 1
       /\ vy (region_mask one_box (checked_size TexelsMode 1) (Vec2 2 2)) == 1)%Q).
Proof.
  assert (H1 : (1 < 2)%nat) by lia.
  assert (Hs : sizes_nonnegative one_box (checked_size TexelsMode 1))
    by (split; intros H; discriminate H).
  split; [reflexivity|]. split; [exact H1|]. split; [exact Hs|].
  exact (proj1 (proj2 (proj2 (proj2 (proj2
           (region_test_is_as_commented (E:=Empty_set) 2 1 0 0 TexelsMode 1 one_box
              (Vec2 2 2) None eq_refl H1 Hs)))))).
Defined.

Lemma bounds_check_is_half_open_witness :
  mode_of 1 0 1 = Some PixelsMode /\ (0 < 1)%nat
  /\ (0 < vx (RegionSizes one_box (checked_size PixelsMode 0)))%Q
  /\ (0 < vy (RegionSizes one_box (checked_size PixelsMode 0)))%Q
  /\ exists r,
       call_func one_box (imageSrcAt PixelsMode 0) (RegionOrigins one_box 0)
       = Some (VVec4 r)
       /\ vec4_eq r
            (Textures one_box 0 (pos_value PixelsMode 0 one_box (RegionOrigins one_box 0))).
Proof.
  assert (H1 : (0 < 1)%nat) by lia.
  assert (Hx : (0 < vx (RegionSizes one_box (checked_size PixelsMode 0)))%Q)
    by reflexivity.
  assert (Hy : (0 < vy (RegionSizes one_box (checked_size PixelsMode 0)))%Q)
    by reflexivity.
  split; [reflexivity|]. split; [exact H1|]. split; [exact Hx|]. split; [exact Hy|].
  exact (proj1 (proj2
           (bounds_check_is_half_open (E:=Empty_set) 1 1 0 1 PixelsMode 0 one_box (Vec2 0 0)
              eq_refl H1 Hx Hy))).
Defined.

Lemma empty_region_masks_every_sample_witness :
  mode_of 1 0 1 = Some PixelsMode /\ (1 < 2)%nat
  /\ (vx (RegionSizes one_box (checked_size PixelsMode 1)) == 0
      \/ vy (RegionSizes one_box (checked_size PixelsMode 1)) == 0)%Q
  /\ exists r,
       call_func one_box (imageSrcAt PixelsMode 1) (Vec2 1 2) = Some (VVec4 r)
       /\ vec4_eq r (vec4_of 0).
Proof.
  assert (H1 : (1 < 2)%nat) by lia.
  assert (Hz : (vx (RegionSizes one_box (checked_size PixelsMode 1)) == 0
                \/ vy (RegionSizes one_box (checked_size PixelsMode 1)) == 0)%Q)
    by (left; reflexivity).
  split; [reflexivity|]. split; [exact H1|]. split; [exact Hz|].
  exact (proj2
           (empty_region_masks_every_sample (E:=Empty_set) 2 1 0 1 PixelsMode 1 one_box
              (Vec2 1 2) eq_refl H1 Hz)).
Defined.

Lemma CompileShader_returns_program_or_error_witness :
  snd (CompileShader 1 1 0 parse_pixels compile_no_fragment [])
  = Returns (None, Some (fmtError
      "graphics: fragment shader entry point 'Fragment' is missing"))
  /\ ((@None (Program unit unit) = None
       /\ Some (fmtError (E:=unit)
            "graphics: fragment shader entry point 'Fragment' is missing") <> None)
      \/ exists p unit_ suffix,
           None = Some p
           /\ Some (fmtError (E:=unit)
                "graphics: fragment shader entry point 'Fragment' is missing") = None
           /\ Block (VertexFunc p) <> None /\ Block (FragmentFunc p) <> None
           /\ parse_pixels [] = (unit_, None)
           /\ shaderSuffix (E:=unit) 1 1 0 unit_ = (suffix, None)
           /\ compile_no_fragment ([] ++ list_byte_of_string suffix)%list
                "__vertex" "Fragment" 1
              = (Some p, None)).
Proof.
  assert (H : snd (CompileShader 1 1 0 parse_pixels compile_no_fragment [])
              = Returns (None, Some (fmtError
                  "graphics: fragment shader entry point 'Fragment' is missing")))
    by (vm_compute; reflexivity).
  split; [exact H|].
  exact (CompileShader_returns_program_or_error 1 1 0 parse_pixels compile_no_fragment
           [] None _ H).
Defined.

Lemma suffix_error_is_returned_witness :
  (2 <= 2)%nat /\ parse_unit_seven [] = (7%Z, None) /\ 7%Z <> 1%Z /\ 7%Z <> 0%Z
  /\ CompileShader 2 1 0 parse_unit_seven compile_both []
     = ([CallParseCompilerDirectives []; CallShaderSuffix 7],
        Returns (None, Some (fmtError ("graphics: unexpected unit: " ++ fmt_d 7)))).
Proof.
  assert (H1 : (2 <= 2)%nat) by lia.
  assert (H2 : 7%Z <> 1%Z) by discriminate.
  assert (H3 : 7%Z <> 0%Z) by discriminate.
  split; [exact H1|]. split; [reflexivity|]. split; [exact H2|]. split; [exact H3|].
  exact (suffix_error_is_returned 2 1 0 parse_unit_seven compile_both [] 7
           H1 eq_refl H2 H3).
Defined.

Lemma compiled_buffer_frames_source_witness :
  In (CallCompile
        (list_byte_of_string (fst (shaderSuffix (E:=unit) 1 1 0 1)))
        "__vertex" "Fragment" 1)
     (fst (CompileShader 1 1 0 parse_pixels compile_both []))
  /\ exists body,
       list_byte_of_string (fst (shaderSuffix (E:=unit) 1 1 0 1))
       = ([] ++ list_byte_of_string (Sprintf header_format [ArgInt (Z.of_nat 1)])
             ++ list_byte_of_string body
             ++ list_byte_of_string vertex_text)%list.
Proof.
  assert (H : In (CallCompile
                    (list_byte_of_string (fst (shaderSuffix (E:=unit) 1 1 0 1)))
                    "__vertex" "Fragment" 1)
                 (fst (CompileShader 1 1 0 parse_pixels compile_both [])))
    by (vm_compute; right; right; left; reflexivity).
  split; [exact H|].
  exact (proj1 (proj2 (proj2 (proj2
           (compiled_buffer_frames_source 1 1 0 parse_pixels compile_both [] _ _ _ _ H))))).
Defined.

Lemma shaderSuffix_error_iff_witness :
  snd (shaderSuffix (E:=Empty_set) 1 1 0 7) = None
  /\ fst (shaderSuffix (E:=Empty_set) 1 1 0 7) <> EmptyString.
Proof.
  assert (H : snd (shaderSuffix (E:=Empty_set) 1 1 0 7) = None)
    by (vm_compute; reflexivity).
  split; [exact H|].
  exact (proj2 (proj2 (shaderSuffix_error_iff (E:=Empty_set) 1 1 0 7)) H).
Defined.

Lemma CompileShader_panics_iff_witness :
  snd (CompileShader 1 1 0 parse_pixels compile_nil []) = Panics.
Proof.
  apply (proj2 (CompileShader_panics_iff 1 1 0 parse_pixels compile_nil [])).
  exists 1%Z, (fst (shaderSuffix (E:=unit) 1 1 0 1)).
  split; [reflexivity|]. split; [vm_compute; reflexivity | reflexivity].
Defined.
